(** * controleur-stepper: stepper-motor controller for a PIC18F

    Shallow embedding of [controleur-stepper.c]: the two commutation
    routines, the motion state machine [machine] and the interrupt handler
    [interruptionsHP] with its software divider.

    The C functions communicate through [static] variables and special
    function registers, so the embedding threads one record, [Monde],
    through a small state-and-failure monad.  An array read outside its
    table is undefined in C and is a failure ([None]) here. *)

From Stdlib Require Import ZArith List Bool Lia.
Import ListNotations.
Open Scope Z_scope.

(** ** Data *)

(** [enum Etat] *)
Inductive Etat : Type :=
  | ARRET
  | MARCHE_AVANT
  | FREIN_AVANT
  | MARCHE_ARRIERE
  | FREIN_ARRIERE.

(** [enum Evenement] *)
Inductive Evenement : Type :=
  | AVANCE
  | RECULE
  | ARRETE
  | TICTAC.

(** Ghost record of a call to one of the two commutation routines, with
    the argument it received. *)
Inductive Commutation : Type :=
  | Stationnement (pas : Z)
  | Deplacement (pas : Z).

(** Everything the code reads or writes.
    - [etat], [pas]: the statics of [machine];
    - [hp_n]: the static [n] of [interruptionsHP];
    - [CCPR3L], [PORTA]: the output registers;
    - [TMR2IF], [INT2IF], [INT1IF]: the interrupt flags the handler tests;
    - [evenements], [commutations]: ghost journals, newest entry first, of
      the events [machine] was called with and of the commutation calls. *)
Record Monde : Type := MkMonde {
  etat : Etat;
  pas : Z;
  hp_n : Z;
  CCPR3L : Z;
  PORTA : Z;
  TMR2IF : bool;
  INT2IF : bool;
  INT1IF : bool;
  evenements : list Evenement;
  commutations : list Commutation
}.

Definition avec_etat (e : Etat) (m : Monde) : Monde :=
  MkMonde e (pas m) (hp_n m) (CCPR3L m) (PORTA m)
          (TMR2IF m) (INT2IF m) (INT1IF m) (evenements m) (commutations m).

Definition avec_pas (p : Z) (m : Monde) : Monde :=
  MkMonde (etat m) p (hp_n m) (CCPR3L m) (PORTA m)
          (TMR2IF m) (INT2IF m) (INT1IF m) (evenements m) (commutations m).

Definition avec_hp_n (k : Z) (m : Monde) : Monde :=
  MkMonde (etat m) (pas m) k (CCPR3L m) (PORTA m)
          (TMR2IF m) (INT2IF m) (INT1IF m) (evenements m) (commutations m).

Definition avec_CCPR3L (v : Z) (m : Monde) : Monde :=
  MkMonde (etat m) (pas m) (hp_n m) v (PORTA m)
          (TMR2IF m) (INT2IF m) (INT1IF m) (evenements m) (commutations m).

Definition avec_PORTA (v : Z) (m : Monde) : Monde :=
  MkMonde (etat m) (pas m) (hp_n m) (CCPR3L m) v
          (TMR2IF m) (INT2IF m) (INT1IF m) (evenements m) (commutations m).

Definition avec_TMR2IF (b : bool) (m : Monde) : Monde :=
  MkMonde (etat m) (pas m) (hp_n m) (CCPR3L m) (PORTA m)
          b (INT2IF m) (INT1IF m) (evenements m) (commutations m).

Definition avec_INT2IF (b : bool) (m : Monde) : Monde :=
  MkMonde (etat m) (pas m) (hp_n m) (CCPR3L m) (PORTA m)
          (TMR2IF m) b (INT1IF m) (evenements m) (commutations m).

Definition avec_INT1IF (b : bool) (m : Monde) : Monde :=
  MkMonde (etat m) (pas m) (hp_n m) (CCPR3L m) (PORTA m)
          (TMR2IF m) (INT2IF m) b (evenements m) (commutations m).

Definition consigne_evenement (e : Evenement) (m : Monde) : Monde :=
  MkMonde (etat m) (pas m) (hp_n m) (CCPR3L m) (PORTA m)
          (TMR2IF m) (INT2IF m) (INT1IF m) (e :: evenements m) (commutations m).

Definition consigne_commutation (c : Commutation) (m : Monde) : Monde :=
  MkMonde (etat m) (pas m) (hp_n m) (CCPR3L m) (PORTA m)
          (TMR2IF m) (INT2IF m) (INT1IF m) (evenements m) (c :: commutations m).

(** ** The monad *)

Definition M (A : Type) : Type := Monde -> option (A * Monde).

Definition ret {A : Type} (a : A) : M A := fun m => Some (a, m).

Definition bind {A B : Type} (c : M A) (k : A -> M B) : M B :=
  fun m => match c m with
           | Some (a, m') => k a m'
           | None => None
           end.

Definition echec {A : Type} : M A := fun _ => None.

Definition lit {A : Type} (f : Monde -> A) : M A := fun m => Some (f m, m).

Definition modifie (f : Monde -> Monde) : M unit := fun m => Some (tt, f m).

Declare Scope monde_scope.
Delimit Scope monde_scope with monde.
Notation "x <- c ;; k" := (bind c (fun x => k))
  (at level 61, c at next level, right associativity) : monde_scope.
Notation "c ;; k" := (bind c (fun _ => k))
  (at level 61, right associativity) : monde_scope.
Open Scope monde_scope.

(** ** Machine integers and arrays *)

(** Conversion to an 8-bit unsigned object ([unsigned char], and plain
    [char], which the XC8 compiler makes unsigned). *)
Definition octet (z : Z) : Z := z mod 256.

(** [t[i]]: defined only inside the table. *)
Definition lit_tableau (t : list Z) (i : Z) : M Z :=
  if (0 <=? i) && (i <? Z.of_nat (length t))
  then match nth_error t (Z.to_nat i) with
       | Some v => ret v
       | None => echec
       end
  else echec.

(** ** Commutation *)

Definition commutateursStationnement : list Z := [1; 4; 2; 8].

Definition cos : list Z :=
  [32; 31; 27; 22; 16; 10; 5; 1;
    0;  1;  5; 10; 16; 22; 27; 31].

Definition commutateursDeplacement : list Z := [5; 6; 10; 9].

(** The value [PR2 = 32] that [main] gives the period register of timer 2:
    the PWM duty range is 0..32. *)
Definition PR2 : Z := 32.

(** The duty written when parked ([CCPR3L = 16]). *)
Definition PWM_ARRET : Z := 16.

(** [n = pas >> 3], stored in an 8-bit [n]: index in either switch table. *)
Definition indice_commutateurs (pas : Z) : Z := octet (Z.shiftr pas 3).

(** [n = pas & 0x0F], stored in an 8-bit [n]: index in [cos]. *)
Definition indice_cos (pas : Z) : Z := octet (Z.land pas 15).

Definition commutationStationnement (pas : Z) : M unit :=
  modifie (consigne_commutation (Stationnement pas)) ;;
  modifie (avec_CCPR3L PWM_ARRET) ;;
  let n := indice_commutateurs pas in
  v <- lit_tableau commutateursStationnement n ;;
  modifie (avec_PORTA v).

Definition commutationDeplacement (pas : Z) : M unit :=
  modifie (consigne_commutation (Deplacement pas)) ;;
  let n := indice_cos pas in
  a <- lit_tableau cos n ;;
  modifie (avec_CCPR3L a) ;;
  let n := indice_commutateurs pas in
  v <- lit_tableau commutateursDeplacement n ;;
  modifie (avec_PORTA v).

(** ** The state machine *)

(** The labels [case 0: case 8: case 16: case 24:] of [switch(pas)]. *)
Definition pas_entier (p : Z) : bool :=
  match p with
  | 0 | 8 | 16 | 24 => true
  | _ => false
  end.

(** [pas++; if (pas > 31) pas = 0;] on an [unsigned char]. *)
Definition incremente_pas : M unit :=
  modifie (fun m => avec_pas (octet (pas m + 1)) m) ;;
  p <- lit pas ;;
  if 31 <? p then modifie (avec_pas 0) else ret tt.

(** [pas--; if (pas > 31) pas = 31;] on an [unsigned char]: from 0 the
    decrement wraps to 255, which the test brings back to 31. *)
Definition decremente_pas : M unit :=
  modifie (fun m => avec_pas (octet (pas m - 1)) m) ;;
  p <- lit pas ;;
  if 31 <? p then modifie (avec_pas 31) else ret tt.

Definition machine (evenement : Evenement) : M unit :=
  modifie (consigne_evenement evenement) ;;
  e <- lit etat ;;
  match e with
  | ARRET =>
      match evenement with
      | AVANCE => modifie (avec_etat MARCHE_AVANT)
      | RECULE => modifie (avec_etat MARCHE_ARRIERE)
      | _ => ret tt
      end
  | MARCHE_AVANT =>
      match evenement with
      | TICTAC =>
          p <- lit pas ;;
          commutationDeplacement p ;;
          incremente_pas
      | RECULE | ARRETE => modifie (avec_etat FREIN_AVANT)
      | _ => ret tt
      end
  | FREIN_AVANT =>
      match evenement with
      | TICTAC =>
          p <- lit pas ;;
          if pas_entier p
          then commutationStationnement p ;; modifie (avec_etat ARRET)
          else commutationDeplacement p ;; incremente_pas
      | _ => ret tt
      end
  | MARCHE_ARRIERE =>
      match evenement with
      | TICTAC =>
          p <- lit pas ;;
          commutationDeplacement p ;;
          decremente_pas
      | AVANCE | ARRETE => modifie (avec_etat FREIN_ARRIERE)
      | _ => ret tt
      end
  | FREIN_ARRIERE =>
      match evenement with
      | TICTAC =>
          p <- lit pas ;;
          if pas_entier p
          then commutationStationnement p ;; modifie (avec_etat ARRET)
          else commutationDeplacement p ;; decremente_pas
      | _ => ret tt
      end
  end.

(** ** The interrupt handler *)

Definition interruptionsHP : M unit :=
  f <- lit TMR2IF ;;
  (if f
   then modifie (avec_TMR2IF false) ;;
        n <- lit hp_n ;;
        (if n =? 0 then machine TICTAC else ret tt) ;;
        modifie (fun m => avec_hp_n (octet (hp_n m + 1)) m) ;;
        n <- lit hp_n ;;
        if 25 <? n then modifie (avec_hp_n 0) else ret tt
   else ret tt) ;;
  f <- lit INT2IF ;;
  (if f
   then modifie (avec_INT2IF false) ;; machine AVANCE
   else ret tt) ;;
  f <- lit INT1IF ;;
  if f
  then modifie (avec_INT1IF false) ;; machine RECULE
  else ret tt.

(** ** Drivers *)

(** The statics as their initialisers leave them ([etat = ARRET],
    [pas = 0], [n = 0]), the outputs as [main] leaves them
    ([commutationStationnement(0)]), no flag raised, empty journals. *)
Definition monde_initial : Monde :=
  MkMonde ARRET 0 0 16 1 false false false [] [].

(** A sequence of events dispatched to [machine], one after the other. *)
Fixpoint machine_suite (evs : list Evenement) : M unit :=
  match evs with
  | [] => ret tt
  | e :: r => machine e ;; machine_suite r
  end.

(** [k] consecutive [TICTAC]. *)
Definition tictacs (k : nat) : list Evenement := repeat TICTAC k.

(** One firing of timer 2: the hardware raises [TMR2IF] and the handler
    runs. *)
Definition tir_tmr2 : M unit :=
  modifie (avec_TMR2IF true) ;; interruptionsHP.

Fixpoint tirs_tmr2 (k : nat) : M unit :=
  match k with
  | O => ret tt
  | S k' => tir_tmr2 ;; tirs_tmr2 k'
  end.

(** Number of [TICTAC] in a journal of events. *)
Definition nombre_tictac (l : list Evenement) : nat :=
  length (filter (fun e => match e with TICTAC => true | _ => false end) l).

(** ** The effects in closed form

    What the routines do to the world when every table read succeeds;
    the properties below prove that they do on a position in 0..31. *)

Definition effet_stationnement (p : Z) (m : Monde) : Monde :=
  avec_PORTA
    (nth (Z.to_nat (indice_commutateurs p)) commutateursStationnement 0)
    (avec_CCPR3L PWM_ARRET (consigne_commutation (Stationnement p) m)).

Definition effet_deplacement (p : Z) (m : Monde) : Monde :=
  avec_PORTA
    (nth (Z.to_nat (indice_commutateurs p)) commutateursDeplacement 0)
    (avec_CCPR3L (nth (Z.to_nat (indice_cos p)) cos 0)
       (consigne_commutation (Deplacement p) m)).

Definition pas_valide (m : Monde) : Prop := 0 <= pas m <= 31.

Definition apres_machine (ev : Evenement) (m : Monde) : Monde :=
  let m0 := consigne_evenement ev m in
  match etat m, ev with
  | ARRET, AVANCE => avec_etat MARCHE_AVANT m0
  | ARRET, RECULE => avec_etat MARCHE_ARRIERE m0
  | MARCHE_AVANT, TICTAC =>
      avec_pas ((pas m + 1) mod 32) (effet_deplacement (pas m) m0)
  | MARCHE_AVANT, (RECULE | ARRETE) => avec_etat FREIN_AVANT m0
  | FREIN_AVANT, TICTAC =>
      if pas_entier (pas m)
      then avec_etat ARRET (effet_stationnement (pas m) m0)
      else avec_pas ((pas m + 1) mod 32) (effet_deplacement (pas m) m0)
  | MARCHE_ARRIERE, TICTAC =>
      avec_pas ((pas m - 1) mod 32) (effet_deplacement (pas m) m0)
  | MARCHE_ARRIERE, (AVANCE | ARRETE) => avec_etat FREIN_ARRIERE m0
  | FREIN_ARRIERE, TICTAC =>
      if pas_entier (pas m)
      then avec_etat ARRET (effet_stationnement (pas m) m0)
      else avec_pas ((pas m - 1) mod 32) (effet_deplacement (pas m) m0)
  | _, _ => m0
  end.

(** The world after a sequence of events. *)
Definition apres_suite (evs : list Evenement) (m : Monde) : Monde :=
  fold_left (fun w e => apres_machine e w) evs m.

(** One firing of timer 2 in closed form, stage by stage as the handler
    is written, and [k] firings. *)
Definition apres_tir (m : Monde) : Monde :=
  let m1 := avec_TMR2IF false (avec_TMR2IF true m) in
  let m2 := if hp_n m1 =? 0 then apres_machine TICTAC m1 else m1 in
  let m3 := avec_hp_n (octet (hp_n m2 + 1)) m2 in
  let m4 := if 25 <? hp_n m3 then avec_hp_n 0 m3 else m3 in
  let m5 := if INT2IF m4
            then apres_machine AVANCE (avec_INT2IF false m4) else m4 in
  if INT1IF m5 then apres_machine RECULE (avec_INT1IF false m5) else m5.

Fixpoint apres_tirs (k : nat) (m : Monde) : Monde :=
  match k with
  | O => m
  | S k' => apres_tirs k' (apres_tir m)
  end.

(** ** Vocabulary of the statements *)

(** The motor side of two worlds is the same: state, position, both output
    registers and the journal of commutation calls. *)
Definition meme_moteur (w m : Monde) : Prop :=
  etat w = etat m /\ pas w = pas m /\
  CCPR3L w = CCPR3L m /\ PORTA w = PORTA m /\
  commutations w = commutations m.

(** The position is on a full step. *)
Definition sur_pas_entier (p : Z) : Prop :=
  p = 0 \/ p = 8 \/ p = 16 \/ p = 24.

(** The rows of the transition table of the design document, section 4.3:
    the (state, event) pairs that it lists.  Used only to say which pairs
    are not listed. *)
Definition dans_la_table (e : Etat) (ev : Evenement) : bool :=
  match e, ev with
  | ARRET, _ => true
  | MARCHE_AVANT, (TICTAC | RECULE | ARRETE) => true
  | FREIN_AVANT, TICTAC => true
  | MARCHE_ARRIERE, (TICTAC | AVANCE | ARRETE) => true
  | FREIN_ARRIERE, TICTAC => true
  | _, _ => false
  end.

(** Number of [TICTAC] still to come before a braking motor reaches a full
    step, going forward and going backward. *)
Definition distance_avant (p : Z) : nat := Z.to_nat ((- p) mod 8).

Definition distance_arriere (p : Z) : nat := Z.to_nat (p mod 8).

(** The calls [commutationDeplacement(p)], [(p+1)], ... of [k] steps
    forward, and of [k] steps backward, newest first as in the journal. *)
Definition deplacements_avant (p : Z) (k : nat) : list Commutation :=
  rev (map (fun i => Deplacement (p + Z.of_nat i)) (seq 0 k)).

Definition deplacements_arriere (p : Z) (k : nat) : list Commutation :=
  rev (map (fun i => Deplacement (p - Z.of_nat i)) (seq 0 k)).

(** ** The handler on any flags, and [main] *)

(** The flags that the hardware raises before one run of the handler:
    timer 2, INT2 (wired to [AVANCE]) and INT1 (wired to [RECULE]). *)
Record Demande : Type := MkDemande {
  d_tmr2 : bool;
  d_int2 : bool;
  d_int1 : bool
}.

(** A flag that is already up stays up. *)
Definition leve (d : Demande) (m : Monde) : Monde :=
  avec_INT1IF (INT1IF m || d_int1 d)
    (avec_INT2IF (INT2IF m || d_int2 d)
       (avec_TMR2IF (TMR2IF m || d_tmr2 d) m)).

(** One interruption: the hardware raises flags, the handler runs. *)
Definition interruption (d : Demande) : M unit :=
  modifie (leve d) ;; interruptionsHP.

Fixpoint interruptions (l : list Demande) : M unit :=
  match l with
  | [] => ret tt
  | d :: r => interruption d ;; interruptions r
  end.

(** Number of timer firings among the interruptions. *)
Definition nombre_tirs (l : list Demande) : nat :=
  length (filter d_tmr2 l).

(** The events that one run of the handler dispatches, in the order of the
    three blocks of [interruptionsHP]. *)
Definition evenements_emis (m : Monde) : list Evenement :=
  (if TMR2IF m && (hp_n m =? 0) then [TICTAC] else [])
  ++ (if INT2IF m then [AVANCE] else [])
  ++ (if INT1IF m then [RECULE] else []).

(** One run of the handler in closed form, block by block: the timer
    block, then the block of each direction line. *)
Definition apres_bloc_tmr2 (m : Monde) : Monde :=
  if TMR2IF m
  then let m1 := avec_TMR2IF false m in
       let m2 := if hp_n m1 =? 0 then apres_machine TICTAC m1 else m1 in
       let m3 := avec_hp_n (octet (hp_n m2 + 1)) m2 in
       if 25 <? hp_n m3 then avec_hp_n 0 m3 else m3
  else m.

Definition apres_bloc_int2 (m : Monde) : Monde :=
  if INT2IF m then apres_machine AVANCE (avec_INT2IF false m) else m.

Definition apres_bloc_int1 (m : Monde) : Monde :=
  if INT1IF m then apres_machine RECULE (avec_INT1IF false m) else m.

Definition apres_interruptionsHP (m : Monde) : Monde :=
  apres_bloc_int1 (apres_bloc_int2 (apres_bloc_tmr2 m)).

Definition apres_interruptions (l : list Demande) (m : Monde) : Monde :=
  fold_left (fun w d => apres_interruptionsHP (leve d w)) l m.

(** The writes of [main] to the registers of the model, in program order:
    [PORTA = 9], [PIR1bits.TMR2IF = 0], then the call
    [commutationStationnement(0)].  The configuration registers that no
    other function reads are outside the model, and so is the final idle
    loop [while(1)]. *)
Definition main : M unit :=
  modifie (avec_PORTA 9) ;;
  modifie (avec_TMR2IF false) ;;
  commutationStationnement 0.

(** The world at reset: the statics hold their initialisers, nothing has
    been journalled, no direction line has fired; the content of the
    output registers and of the timer flag is whatever it is. *)
Definition monde_reset (c a : Z) (t : bool) : Monde :=
  MkMonde ARRET 0 0 c a t false false [] [].

(** The two worlds agree on the motor and on the journal of events. *)
Definition meme_machine (w m : Monde) : Prop :=
  meme_moteur w m /\ evenements w = evenements m.

(** What a run of the handler leaves of the interrupt flags. *)
Definition drapeaux_baisses (m : Monde) : Prop :=
  TMR2IF m = false /\ INT2IF m = false /\ INT1IF m = false.

(** The outputs are those that [commutationStationnement] writes at the
    current position. *)
Definition sorties_stationnement (m : Monde) : Prop :=
  CCPR3L m = PWM_ARRET /\
  nth_error commutateursStationnement (Z.to_nat (Z.shiftr (pas m) 3))
  = Some (PORTA m).

(** The outputs are those that [commutationDeplacement] writes at
    position [p]. *)
Definition sorties_deplacement (p : Z) (m : Monde) : Prop :=
  nth_error cos (Z.to_nat (Z.land p 15)) = Some (CCPR3L m) /\
  nth_error commutateursDeplacement (Z.to_nat (Z.shiftr p 3))
  = Some (PORTA m).

(** * Properties *)

(** ** Machine arithmetic *)

Lemma octet_petit (z : Z) : 0 <= z < 256 -> octet z = z.
Proof. intros H. unfold octet. apply Z.mod_small. exact H. Qed.

Lemma decalage_3 (p : Z) : Z.shiftr p 3 = p / 8.
Proof. rewrite Z.shiftr_div_pow2 by lia. reflexivity. Qed.

Lemma masque_0F (p : Z) : Z.land p 15 = p mod 16.
Proof. change 15 with (Z.ones 4). rewrite Z.land_ones by lia. reflexivity. Qed.

Lemma indice_commutateurs_div (p : Z) :
  0 <= p <= 31 -> indice_commutateurs p = p / 8.
Proof.
  intros H. unfold indice_commutateurs. rewrite decalage_3.
  apply octet_petit.
  assert (0 <= p / 8) by (apply Z.div_pos; lia).
  assert (p / 8 < 4) by (apply Z.div_lt_upper_bound; lia).
  lia.
Qed.

Lemma indice_cos_mod (p : Z) : indice_cos p = p mod 16.
Proof.
  unfold indice_cos. rewrite masque_0F. apply octet_petit.
  pose proof (Z.mod_pos_bound p 16). lia.
Qed.

Lemma indice_commutateurs_borne (p : Z) :
  0 <= p <= 31 -> 0 <= indice_commutateurs p <= 3.
Proof.
  intros H. rewrite indice_commutateurs_div by exact H.
  assert (0 <= p / 8) by (apply Z.div_pos; lia).
  assert (p / 8 < 4) by (apply Z.div_lt_upper_bound; lia).
  lia.
Qed.

Lemma indice_cos_borne (p : Z) : 0 <= indice_cos p <= 15.
Proof.
  rewrite indice_cos_mod. pose proof (Z.mod_pos_bound p 16). lia.
Qed.

Lemma pas_entier_vrai (p : Z) :
  pas_entier p = true <-> p = 0 \/ p = 8 \/ p = 16 \/ p = 24.
Proof.
  split.
  - unfold pas_entier.
    repeat match goal with
           | |- context [match ?q with _ => _ end] => destruct q
           end; intros H; try discriminate H; auto.
  - intros [H | [H | [H | H]]]; subst p; reflexivity.
Qed.

Lemma pas_entier_mod (p : Z) :
  0 <= p <= 31 -> pas_entier p = true <-> p mod 8 = 0.
Proof.
  intros H. rewrite pas_entier_vrai. split.
  - intros [E | [E | [E | E]]]; subst p; reflexivity.
  - intros E. pose proof (Z.div_mod p 8). lia.
Qed.

(** ** Array reads *)

Lemma lit_tableau_dedans (t : list Z) (i : Z) (m : Monde) :
  0 <= i < Z.of_nat (length t) ->
  lit_tableau t i m = Some (nth (Z.to_nat i) t 0, m).
Proof.
  intros H. unfold lit_tableau.
  replace ((0 <=? i) && (i <? Z.of_nat (length t))) with true
    by (symmetry; apply andb_true_iff; split;
        [apply Z.leb_le | apply Z.ltb_lt]; lia).
  assert (L : (Z.to_nat i < length t)%nat) by lia.
  destruct (nth_error t (Z.to_nat i)) as [v |] eqn:E.
  - rewrite (nth_error_nth t (Z.to_nat i) 0 E). reflexivity.
  - apply nth_error_None in E. lia.
Qed.

Lemma lit_tableau_dehors (t : list Z) (i : Z) (m : Monde) :
  i < 0 \/ Z.of_nat (length t) <= i -> lit_tableau t i m = None.
Proof.
  intros H. unfold lit_tableau.
  replace ((0 <=? i) && (i <? Z.of_nat (length t))) with false; [reflexivity |].
  symmetry. apply andb_false_iff.
  destruct H; [left; apply Z.leb_gt | right; apply Z.ltb_ge]; lia.
Qed.

(** ** What the commutation routines do *)

Lemma commutationStationnement_effet (p : Z) (m : Monde) :
  0 <= p <= 31 ->
  commutationStationnement p m = Some (tt, effet_stationnement p m).
Proof.
  intros H. pose proof (indice_commutateurs_borne p H) as B.
  unfold commutationStationnement, bind, modifie.
  rewrite lit_tableau_dedans by (simpl length; lia).
  reflexivity.
Qed.

Lemma commutationDeplacement_effet (p : Z) (m : Monde) :
  0 <= p <= 31 ->
  commutationDeplacement p m = Some (tt, effet_deplacement p m).
Proof.
  intros H. pose proof (indice_commutateurs_borne p H) as B.
  pose proof (indice_cos_borne p) as C.
  unfold commutationDeplacement, bind, modifie.
  rewrite lit_tableau_dedans by (simpl length; lia).
  rewrite lit_tableau_dedans by (simpl length; lia).
  reflexivity.
Qed.

(** ** Stepping the position *)

Lemma incremente_pas_effet (m : Monde) :
  0 <= pas m <= 31 ->
  incremente_pas m = Some (tt, avec_pas ((pas m + 1) mod 32) m).
Proof.
  intros H. unfold incremente_pas, bind, modifie, lit, ret. cbn [pas avec_pas].
  rewrite octet_petit by lia.
  destruct (Z.ltb_spec 31 (pas m + 1)) as [G | G].
  - replace (pas m) with 31 by lia. reflexivity.
  - rewrite Z.mod_small by lia. reflexivity.
Qed.

Lemma decremente_pas_effet (m : Monde) :
  0 <= pas m <= 31 ->
  decremente_pas m = Some (tt, avec_pas ((pas m - 1) mod 32) m).
Proof.
  intros H. unfold decremente_pas, bind, modifie, lit, ret. cbn [pas avec_pas].
  destruct (Z.eq_dec (pas m) 0) as [Z0 | NZ].
  - rewrite Z0. reflexivity.
  - rewrite octet_petit by lia.
    destruct (Z.ltb_spec 31 (pas m - 1)) as [G | G]; [lia |].
    rewrite Z.mod_small by lia. reflexivity.
Qed.

Lemma suivant_borne (p : Z) : 0 <= (p + 1) mod 32 <= 31.
Proof. pose proof (Z.mod_pos_bound (p + 1) 32). lia. Qed.

Lemma precedent_borne (p : Z) : 0 <= (p - 1) mod 32 <= 31.
Proof. pose proof (Z.mod_pos_bound (p - 1) 32). lia. Qed.

(** ** The rows of the state machine *)

Section Lignes.

Variable m : Monde.

Lemma machine_ARRET (ev : Evenement) :
  etat m = ARRET ->
  machine ev m =
  Some (tt, match ev with
            | AVANCE => avec_etat MARCHE_AVANT (consigne_evenement ev m)
            | RECULE => avec_etat MARCHE_ARRIERE (consigne_evenement ev m)
            | ARRETE | TICTAC => consigne_evenement ev m
            end).
Proof.
  intros E. unfold machine, bind, modifie, lit. cbn [etat consigne_evenement].
  rewrite E. destruct ev; reflexivity.
Qed.

Lemma machine_MARCHE_AVANT_TICTAC :
  etat m = MARCHE_AVANT -> 0 <= pas m <= 31 ->
  machine TICTAC m =
  Some (tt, avec_pas ((pas m + 1) mod 32)
              (effet_deplacement (pas m) (consigne_evenement TICTAC m))).
Proof.
  intros E H. unfold machine, bind, modifie, lit.
  cbn [etat pas consigne_evenement]. rewrite E.
  rewrite commutationDeplacement_effet by exact H.
  rewrite incremente_pas_effet by exact H. reflexivity.
Qed.

Lemma machine_MARCHE_AVANT_frein (ev : Evenement) :
  etat m = MARCHE_AVANT -> ev = RECULE \/ ev = ARRETE ->
  machine ev m = Some (tt, avec_etat FREIN_AVANT (consigne_evenement ev m)).
Proof.
  intros E H. unfold machine, bind, modifie, lit. cbn [etat consigne_evenement].
  rewrite E. destruct H; subst ev; reflexivity.
Qed.

Lemma machine_FREIN_AVANT_entier :
  etat m = FREIN_AVANT -> pas_entier (pas m) = true ->
  machine TICTAC m =
  Some (tt, avec_etat ARRET
              (effet_stationnement (pas m) (consigne_evenement TICTAC m))).
Proof.
  intros E A. unfold machine, bind, modifie, lit.
  cbn [etat consigne_evenement]. rewrite E.
  change (pas (consigne_evenement TICTAC m)) with (pas m). rewrite A.
  apply pas_entier_vrai in A.
  rewrite commutationStationnement_effet by lia. reflexivity.
Qed.

Lemma machine_FREIN_AVANT_micro :
  etat m = FREIN_AVANT -> 0 <= pas m <= 31 -> pas_entier (pas m) = false ->
  machine TICTAC m =
  Some (tt, avec_pas ((pas m + 1) mod 32)
              (effet_deplacement (pas m) (consigne_evenement TICTAC m))).
Proof.
  intros E H A. unfold machine, bind, modifie, lit.
  cbn [etat consigne_evenement]. rewrite E.
  change (pas (consigne_evenement TICTAC m)) with (pas m). rewrite A.
  rewrite commutationDeplacement_effet by exact H.
  rewrite incremente_pas_effet by exact H. reflexivity.
Qed.

Lemma machine_MARCHE_ARRIERE_TICTAC :
  etat m = MARCHE_ARRIERE -> 0 <= pas m <= 31 ->
  machine TICTAC m =
  Some (tt, avec_pas ((pas m - 1) mod 32)
              (effet_deplacement (pas m) (consigne_evenement TICTAC m))).
Proof.
  intros E H. unfold machine, bind, modifie, lit.
  cbn [etat pas consigne_evenement]. rewrite E.
  rewrite commutationDeplacement_effet by exact H.
  rewrite decremente_pas_effet by exact H. reflexivity.
Qed.

Lemma machine_MARCHE_ARRIERE_frein (ev : Evenement) :
  etat m = MARCHE_ARRIERE -> ev = AVANCE \/ ev = ARRETE ->
  machine ev m = Some (tt, avec_etat FREIN_ARRIERE (consigne_evenement ev m)).
Proof.
  intros E H. unfold machine, bind, modifie, lit. cbn [etat consigne_evenement].
  rewrite E. destruct H; subst ev; reflexivity.
Qed.

Lemma machine_FREIN_ARRIERE_entier :
  etat m = FREIN_ARRIERE -> pas_entier (pas m) = true ->
  machine TICTAC m =
  Some (tt, avec_etat ARRET
              (effet_stationnement (pas m) (consigne_evenement TICTAC m))).
Proof.
  intros E A. unfold machine, bind, modifie, lit.
  cbn [etat consigne_evenement]. rewrite E.
  change (pas (consigne_evenement TICTAC m)) with (pas m). rewrite A.
  apply pas_entier_vrai in A.
  rewrite commutationStationnement_effet by lia. reflexivity.
Qed.

Lemma machine_FREIN_ARRIERE_micro :
  etat m = FREIN_ARRIERE -> 0 <= pas m <= 31 -> pas_entier (pas m) = false ->
  machine TICTAC m =
  Some (tt, avec_pas ((pas m - 1) mod 32)
              (effet_deplacement (pas m) (consigne_evenement TICTAC m))).
Proof.
  intros E H A. unfold machine, bind, modifie, lit.
  cbn [etat consigne_evenement]. rewrite E.
  change (pas (consigne_evenement TICTAC m)) with (pas m). rewrite A.
  rewrite commutationDeplacement_effet by exact H.
  rewrite decremente_pas_effet by exact H. reflexivity.
Qed.

(** Every other pair: the event is dropped. *)
Lemma machine_ignore (ev : Evenement) :
  match etat m, ev with
  | MARCHE_AVANT, AVANCE
  | MARCHE_ARRIERE, RECULE
  | FREIN_AVANT, (AVANCE | RECULE | ARRETE)
  | FREIN_ARRIERE, (AVANCE | RECULE | ARRETE) => True
  | _, _ => False
  end ->
  machine ev m = Some (tt, consigne_evenement ev m).
Proof.
  unfold machine, bind, modifie, lit. cbn [etat consigne_evenement].
  destruct (etat m), ev; intros H; try contradiction; reflexivity.
Qed.

End Lignes.

(** ** The transition as a total function

    On a position inside 0..31 no table read can fail, and [machine] is
    the function [apres_machine] of the world. *)

Lemma machine_total (ev : Evenement) (m : Monde) :
  pas_valide m -> machine ev m = Some (tt, apres_machine ev m).
Proof.
  intros V. unfold pas_valide in V. unfold apres_machine.
  destruct (etat m) eqn:E.
  - rewrite machine_ARRET by exact E. destruct ev; reflexivity.
  - destruct ev.
    + apply machine_ignore. rewrite E. exact I.
    + apply machine_MARCHE_AVANT_frein; auto.
    + apply machine_MARCHE_AVANT_frein; auto.
    + apply machine_MARCHE_AVANT_TICTAC; assumption.
  - destruct ev; try (apply machine_ignore; rewrite E; exact I).
    destruct (pas_entier (pas m)) eqn:A.
    + apply machine_FREIN_AVANT_entier; assumption.
    + apply machine_FREIN_AVANT_micro; assumption.
  - destruct ev.
    + apply machine_MARCHE_ARRIERE_frein; auto.
    + apply machine_ignore. rewrite E. exact I.
    + apply machine_MARCHE_ARRIERE_frein; auto.
    + apply machine_MARCHE_ARRIERE_TICTAC; assumption.
  - destruct ev; try (apply machine_ignore; rewrite E; exact I).
    destruct (pas_entier (pas m)) eqn:A.
    + apply machine_FREIN_ARRIERE_entier; assumption.
    + apply machine_FREIN_ARRIERE_micro; assumption.
Qed.

Lemma apres_machine_valide (ev : Evenement) (m : Monde) :
  pas_valide m -> pas_valide (apres_machine ev m).
Proof.
  unfold pas_valide, apres_machine. intros V.
  pose proof (suivant_borne (pas m)). pose proof (precedent_borne (pas m)).
  destruct (etat m), ev; cbn; try assumption;
    destruct (pas_entier (pas m)); cbn; assumption.
Qed.

(** [machine] touches neither the divider nor the interrupt flags, and
    records exactly the event it was given. *)
Lemma apres_machine_cadre (ev : Evenement) (m : Monde) :
  hp_n (apres_machine ev m) = hp_n m /\
  TMR2IF (apres_machine ev m) = TMR2IF m /\
  INT2IF (apres_machine ev m) = INT2IF m /\
  INT1IF (apres_machine ev m) = INT1IF m /\
  evenements (apres_machine ev m) = ev :: evenements m.
Proof.
  unfold apres_machine.
  destruct (etat m), ev; cbn; try (repeat split; reflexivity);
    destruct (pas_entier (pas m)); cbn; repeat split; reflexivity.
Qed.

Lemma apres_suite_valide (evs : list Evenement) :
  forall m, pas_valide m -> pas_valide (apres_suite evs m).
Proof.
  induction evs as [| e r IH]; intros m V; cbn.
  - exact V.
  - apply IH. apply apres_machine_valide. exact V.
Qed.

Lemma machine_suite_total (evs : list Evenement) :
  forall m, pas_valide m ->
            machine_suite evs m = Some (tt, apres_suite evs m).
Proof.
  induction evs as [| e r IH]; intros m V.
  - reflexivity.
  - cbn [machine_suite]. unfold bind. rewrite machine_total by exact V.
    apply IH. apply apres_machine_valide. exact V.
Qed.

Lemma apres_suite_app (l1 l2 : list Evenement) (m : Monde) :
  apres_suite (l1 ++ l2) m = apres_suite l2 (apres_suite l1 m).
Proof. unfold apres_suite. apply fold_left_app. Qed.

Lemma monde_initial_valide : pas_valide monde_initial.
Proof. unfold pas_valide. cbn. lia. Qed.

(** ** Commutation: values written and table safety *)

(** C5. For every position [p] in 0..31, [commutationStationnement] writes
    the fixed duty 16, half of the 0..32 range, to [CCPR3L] and entry
    [p >> 3] of its 4-entry table to [PORTA]; [commutationDeplacement]
    writes entry [p & 0x0F] of the 16-entry [cos] table to [CCPR3L] and
    entry [p >> 3] of its 4-entry table to [PORTA]. *)
Theorem commutation_ecrit (p : Z) (m : Monde) :
  0 <= p <= 31 ->
  (exists w,
      commutationStationnement p m = Some (tt, w) /\
      CCPR3L w = 16 /\ 2 * CCPR3L w = PR2 /\
      length commutateursStationnement = 4%nat /\
      nth_error commutateursStationnement (Z.to_nat (Z.shiftr p 3))
      = Some (PORTA w)) /\
  (exists w,
      commutationDeplacement p m = Some (tt, w) /\
      length cos = 16%nat /\
      nth_error cos (Z.to_nat (Z.land p 15)) = Some (CCPR3L w) /\
      length commutateursDeplacement = 4%nat /\
      nth_error commutateursDeplacement (Z.to_nat (Z.shiftr p 3))
      = Some (PORTA w)).
Proof.
  intros H.
  pose proof (indice_commutateurs_borne p H) as B.
  pose proof (indice_cos_borne p) as C.
  assert (I3 : Z.shiftr p 3 = indice_commutateurs p).
  { rewrite indice_commutateurs_div by exact H. apply decalage_3. }
  assert (I4 : Z.land p 15 = indice_cos p).
  { rewrite indice_cos_mod. apply masque_0F. }
  rewrite I3, I4. split.
  - exists (effet_stationnement p m).
    split; [apply commutationStationnement_effet; exact H |].
    repeat split.
    cbn [effet_stationnement PORTA avec_PORTA].
    apply nth_error_nth'. simpl length. lia.
  - exists (effet_deplacement p m).
    split; [apply commutationDeplacement_effet; exact H |].
    repeat split.
    + cbn [effet_deplacement CCPR3L avec_PORTA avec_CCPR3L].
      apply nth_error_nth'. simpl length. lia.
    + cbn [effet_deplacement PORTA avec_PORTA].
      apply nth_error_nth'. simpl length. lia.
Qed.

Lemma commutation_ecrit_temoin :
  0 <= 13 <= 31 /\
  (exists w, commutationStationnement 13 monde_initial = Some (tt, w) /\
             CCPR3L w = 16 /\ PORTA w = 4) /\
  (exists w, commutationDeplacement 13 monde_initial = Some (tt, w) /\
             CCPR3L w = 22 /\ PORTA w = 6).
Proof.
  split; [lia |].
  destruct (commutation_ecrit 13 monde_initial ltac:(lia))
    as [[w1 (E1 & A1 & _ & _ & P1)] [w2 (E2 & _ & C2 & _ & P2)]].
  split.
  - exists w1. change (Some 4 = Some (PORTA w1)) in P1.
    repeat split; [exact E1 | exact A1 | congruence].
  - exists w2. change (Some 22 = Some (CCPR3L w2)) in C2.
    change (Some 6 = Some (PORTA w2)) in P2.
    repeat split; [exact E2 | congruence | congruence].
Defined.

(** C10. On a position in 0..31 every index the commutation routines
    compute is inside its table: [pas >> 3] is in 0..3 for both 4-entry
    switch tables and [pas & 0x0F] is in 0..15 for the 16-entry [cos]
    table; every read succeeds and both routines return. *)
Theorem indices_dans_les_tables (p : Z) (m : Monde) :
  0 <= p <= 31 ->
  (indice_commutateurs p = Z.shiftr p 3 /\
   0 <= indice_commutateurs p <= 3 /\
   Z.of_nat (length commutateursStationnement) = 4 /\
   Z.of_nat (length commutateursDeplacement) = 4) /\
  (indice_cos p = Z.land p 15 /\
   0 <= indice_cos p <= 15 /\
   Z.of_nat (length cos) = 16) /\
  lit_tableau commutateursStationnement (indice_commutateurs p) m <> None /\
  lit_tableau commutateursDeplacement (indice_commutateurs p) m <> None /\
  lit_tableau cos (indice_cos p) m <> None /\
  commutationStationnement p m <> None /\
  commutationDeplacement p m <> None.
Proof.
  intros H.
  pose proof (indice_commutateurs_borne p H) as B.
  pose proof (indice_cos_borne p) as C.
  split; [| split].
  - repeat split; try lia.
    rewrite indice_commutateurs_div by exact H. symmetry. apply decalage_3.
  - repeat split; try lia.
    rewrite indice_cos_mod. symmetry. apply masque_0F.
  - repeat split.
    + rewrite lit_tableau_dedans by (simpl length; lia). discriminate.
    + rewrite lit_tableau_dedans by (simpl length; lia). discriminate.
    + rewrite lit_tableau_dedans by (simpl length; lia). discriminate.
    + rewrite commutationStationnement_effet by exact H. discriminate.
    + rewrite commutationDeplacement_effet by exact H. discriminate.
Qed.

Lemma indices_dans_les_tables_temoin :
  0 <= 31 <= 31 /\ indice_commutateurs 31 = 3 /\ indice_cos 31 = 15 /\
  commutationDeplacement 31 monde_initial <> None.
Proof.
  split; [lia |].
  pose proof (indices_dans_les_tables 31 monde_initial ltac:(lia)) as T.
  split; [reflexivity | split; [reflexivity |]].
  apply T.
Defined.

(** Outside 0..31 the tables are too short: the precondition is needed. *)
Example commutationDeplacement_hors_table :
  commutationDeplacement 32 monde_initial = None.
Proof. reflexivity. Qed.

(** ** Position arithmetic *)

(** C4. The position moves modulo 32 in both directions: a [TICTAC] in
    [MARCHE_AVANT] takes position [p] of 0..31 to [(p + 1) mod 32], so 31
    to 0; a [TICTAC] in [MARCHE_ARRIERE] takes it to [(p - 1) mod 32], so
    0 to 31. *)
Theorem position_modulo_32 :
  (forall m, etat m = MARCHE_AVANT -> 0 <= pas m <= 31 ->
             exists w, machine TICTAC m = Some (tt, w) /\
                       pas w = (pas m + 1) mod 32 /\
                       (pas m = 31 -> pas w = 0)) /\
  (forall m, etat m = MARCHE_ARRIERE -> 0 <= pas m <= 31 ->
             exists w, machine TICTAC m = Some (tt, w) /\
                       pas w = (pas m - 1) mod 32 /\
                       (pas m = 0 -> pas w = 31)).
Proof.
  split; intros m E H.
  - rewrite machine_MARCHE_AVANT_TICTAC by assumption.
    eexists; split; [reflexivity |]. cbn [pas avec_pas].
    split; [reflexivity |]. intros P. rewrite P. reflexivity.
  - rewrite machine_MARCHE_ARRIERE_TICTAC by assumption.
    eexists; split; [reflexivity |]. cbn [pas avec_pas].
    split; [reflexivity |]. intros P. rewrite P. reflexivity.
Qed.

Lemma position_modulo_32_temoin :
  (exists w, machine TICTAC (avec_pas 31 (avec_etat MARCHE_AVANT monde_initial))
             = Some (tt, w) /\ pas w = 0) /\
  (exists w, machine TICTAC (avec_etat MARCHE_ARRIERE monde_initial)
             = Some (tt, w) /\ pas w = 31).
Proof.
  destruct position_modulo_32 as [A R]. split.
  - destruct (A (avec_pas 31 (avec_etat MARCHE_AVANT monde_initial)))
      as [w (E & _ & P)]; [reflexivity | cbn; lia |].
    exists w. split; [exact E | apply P; reflexivity].
  - destruct (R (avec_etat MARCHE_ARRIERE monde_initial))
      as [w (E & _ & P)]; [reflexivity | cbn; lia |].
    exists w. split; [exact E | apply P; reflexivity].
Defined.

(** ** Dropped events and the frame of the direction events *)

Lemma consigne_meme_moteur (ev : Evenement) (m : Monde) :
  meme_moteur (consigne_evenement ev m) m.
Proof. unfold meme_moteur. cbn. repeat split; reflexivity. Qed.

Lemma meme_moteur_trans (a b c : Monde) :
  meme_moteur a b -> meme_moteur b c -> meme_moteur a c.
Proof.
  unfold meme_moteur. intros (A1 & A2 & A3 & A4 & A5) (B1 & B2 & B3 & B4 & B5).
  repeat split; congruence.
Qed.

Lemma machine_ARRET_sans_effet (ev : Evenement) (m : Monde) :
  etat m = ARRET -> ev = ARRETE \/ ev = TICTAC ->
  machine ev m = Some (tt, consigne_evenement ev m).
Proof.
  intros E H. rewrite machine_ARRET by exact E.
  destruct H; subst ev; reflexivity.
Qed.

Lemma machine_ARRETE_repete (k : nat) :
  forall m, etat m = ARRET ->
            exists w, machine_suite (repeat ARRETE k) m = Some (tt, w) /\
                      meme_moteur w m.
Proof.
  induction k as [| k IH]; intros m E.
  - exists m. split; [reflexivity |]. unfold meme_moteur. repeat split.
  - cbn [repeat machine_suite]. unfold bind.
    rewrite machine_ARRET_sans_effet by auto.
    destruct (IH (consigne_evenement ARRETE m) E) as [w [R S]].
    exists w. split; [exact R |].
    apply (meme_moteur_trans _ _ _ S). apply consigne_meme_moteur.
Qed.

(** C7. A (state, event) pair that the transition table does not list is
    dropped: [machine] returns, and state, position, outputs and
    commutation calls are what they were.  So are any number of [ARRETE]
    in [ARRET], and a [TICTAC] in [ARRET]. *)
Theorem evenement_ignore :
  (forall m ev, dans_la_table (etat m) ev = false ->
                exists w, machine ev m = Some (tt, w) /\ meme_moteur w m) /\
  (forall m k, etat m = ARRET ->
               exists w, machine_suite (repeat ARRETE k) m = Some (tt, w) /\
                         meme_moteur w m) /\
  (forall m, etat m = ARRET ->
             exists w, machine TICTAC m = Some (tt, w) /\ meme_moteur w m).
Proof.
  split; [| split].
  - intros m ev H. exists (consigne_evenement ev m).
    split; [| apply consigne_meme_moteur].
    apply machine_ignore.
    destruct (etat m), ev; cbn in H; try discriminate H; exact I.
  - intros m k E. apply machine_ARRETE_repete. exact E.
  - intros m E. exists (consigne_evenement TICTAC m).
    split; [| apply consigne_meme_moteur].
    apply machine_ARRET_sans_effet; auto.
Qed.

Lemma evenement_ignore_temoin :
  (exists w, machine AVANCE (avec_pas 5 (avec_etat FREIN_ARRIERE monde_initial))
             = Some (tt, w) /\ etat w = FREIN_ARRIERE /\ pas w = 5) /\
  (exists w, machine_suite (repeat ARRETE 3) monde_initial = Some (tt, w) /\
             etat w = ARRET /\ pas w = 0) /\
  (exists w, machine TICTAC monde_initial = Some (tt, w) /\
             etat w = ARRET /\ pas w = 0).
Proof.
  destruct evenement_ignore as (A & B & C). split; [| split].
  - destruct (A (avec_pas 5 (avec_etat FREIN_ARRIERE monde_initial)) AVANCE)
      as [w (E & S1 & S2 & _)]; [reflexivity |].
    exists w. repeat split; assumption.
  - destruct (B monde_initial 3%nat) as [w (E & S1 & S2 & _)]; [reflexivity |].
    exists w. repeat split; assumption.
  - destruct (C monde_initial) as [w (E & S1 & S2 & _)]; [reflexivity |].
    exists w. repeat split; assumption.
Defined.

(** C9. In every state, an event other than [TICTAC] leaves the position,
    both output registers and the journal of commutation calls as they
    were: only [TICTAC] moves the position or drives the outputs. *)
Theorem seul_TICTAC_agit (m : Monde) (ev : Evenement) :
  ev <> TICTAC ->
  exists w, machine ev m = Some (tt, w) /\
            pas w = pas m /\
            CCPR3L w = CCPR3L m /\ PORTA w = PORTA m /\
            commutations w = commutations m.
Proof.
  intros N. unfold machine, bind, modifie, lit, ret.
  cbn [etat consigne_evenement].
  destruct (etat m), ev; try (exfalso; apply N; reflexivity);
    eexists; (split; [reflexivity |]); cbn; repeat split; reflexivity.
Qed.

Lemma seul_TICTAC_agit_temoin :
  RECULE <> TICTAC /\
  exists w, machine RECULE (avec_pas 3 (avec_etat MARCHE_AVANT monde_initial))
            = Some (tt, w) /\
            pas w = 3 /\ CCPR3L w = 16 /\ PORTA w = 1 /\ commutations w = [].
Proof.
  split; [discriminate |].
  apply (seul_TICTAC_agit
           (avec_pas 3 (avec_etat MARCHE_AVANT monde_initial)) RECULE).
  discriminate.
Defined.

(** ** Braking *)

(** A property of every position 0..31 can be checked position by
    position. *)
Lemma pour_chaque_pas (P : Z -> Prop) :
  Forall P (map Z.of_nat (seq 0 32)) -> forall p, 0 <= p <= 31 -> P p.
Proof.
  intros F p H. rewrite Forall_forall in F. apply F.
  rewrite <- (Z2Nat.id p) by lia. apply in_map. apply in_seq. lia.
Qed.

(** A property of every [k <= d] can be checked value by value. *)
Lemma pour_chaque_rang (P : nat -> Prop) (d : nat) :
  Forall P (seq 0 (S d)) -> forall k, (k <= d)%nat -> P k.
Proof.
  intros F k H. rewrite Forall_forall in F. apply F. apply in_seq. lia.
Qed.

Lemma apres_tictacs_ARRET (k : nat) :
  forall m, etat m = ARRET ->
            etat (apres_suite (tictacs k) m) = ARRET /\
            pas (apres_suite (tictacs k) m) = pas m.
Proof.
  induction k as [| k IH]; intros m E.
  - cbn. auto.
  - change (apres_suite (tictacs (S k)) m)
      with (apres_suite (tictacs k) (apres_machine TICTAC m)).
    assert (A : apres_machine TICTAC m = consigne_evenement TICTAC m).
    { unfold apres_machine. rewrite E. reflexivity. }
    rewrite A. apply (IH (consigne_evenement TICTAC m) E).
Qed.

Ltac resous_par_calcul :=
  vm_compute; repeat split; intros; first [reflexivity | lia | discriminate].

(** Splits [Forall P l], for a closed list [l], into one goal per element. *)
Ltac un_par_un :=
  match goal with
  | |- Forall ?P ?l =>
      let l' := eval vm_compute in l in change (Forall P l')
  end;
  repeat first [apply Forall_nil | apply Forall_cons];
  cbv beta.

(** A braking motor going forward: the [k]-th [TICTAC] before the full
    step calls [commutationDeplacement] and advances, and the position is
    on a full step exactly after [distance_avant] of them. *)
Lemma course_frein_avant (p : Z) :
  0 <= p <= 31 ->
  forall m, etat m = FREIN_AVANT -> pas m = p ->
  forall k, (k <= distance_avant p)%nat ->
            etat (apres_suite (tictacs k) m) = FREIN_AVANT /\
            pas (apres_suite (tictacs k) m) = (p + Z.of_nat k) mod 32 /\
            commutations (apres_suite (tictacs k) m)
            = deplacements_avant p k ++ commutations m /\
            (sur_pas_entier (pas (apres_suite (tictacs k) m))
             <-> k = distance_avant p).
Proof.
  intros H. pattern p. apply pour_chaque_pas; [| exact H].
  un_par_un;
    intros [e q n c a f1 f2 f3 evs coms] E Q; cbn in E, Q; subst e q;
    apply pour_chaque_rang; un_par_un; resous_par_calcul.
Qed.

Lemma course_frein_arriere (p : Z) :
  0 <= p <= 31 ->
  forall m, etat m = FREIN_ARRIERE -> pas m = p ->
  forall k, (k <= distance_arriere p)%nat ->
            etat (apres_suite (tictacs k) m) = FREIN_ARRIERE /\
            pas (apres_suite (tictacs k) m) = (p - Z.of_nat k) mod 32 /\
            commutations (apres_suite (tictacs k) m)
            = deplacements_arriere p k ++ commutations m /\
            (sur_pas_entier (pas (apres_suite (tictacs k) m))
             <-> k = distance_arriere p).
Proof.
  intros H. pattern p. apply pour_chaque_pas; [| exact H].
  un_par_un;
    intros [e q n c a f1 f2 f3 evs coms] E Q; cbn in E, Q; subst e q;
    apply pour_chaque_rang; un_par_un; resous_par_calcul.
Qed.

Lemma distance_avant_borne (p : Z) : (distance_avant p <= 7)%nat.
Proof.
  unfold distance_avant. pose proof (Z.mod_pos_bound (- p) 8). lia.
Qed.

Lemma distance_arriere_borne (p : Z) : (distance_arriere p <= 7)%nat.
Proof.
  unfold distance_arriere. pose proof (Z.mod_pos_bound p 8). lia.
Qed.

Lemma sur_pas_entier_pas_entier (p : Z) :
  sur_pas_entier p -> pas_entier p = true.
Proof. intros H. apply pas_entier_vrai. exact H. Qed.

(** C1. In [MARCHE_AVANT] at a position in 0..31, [RECULE] puts the machine
    in [FREIN_AVANT] at once, position unchanged.  Each following [TICTAC]
    received off a full step calls [commutationDeplacement] at the current
    position and advances it modulo 32, still in [FREIN_AVANT]; the first
    [TICTAC] received on a full step (0, 8, 16 or 24) calls
    [commutationStationnement] there instead, keeps the position and goes
    to [ARRET]. *)
Theorem freinage_avant (m : Monde) :
  etat m = MARCHE_AVANT -> 0 <= pas m <= 31 ->
  (exists w, machine RECULE m = Some (tt, w) /\
             etat w = FREIN_AVANT /\ pas w = pas m /\
             CCPR3L w = CCPR3L m /\ PORTA w = PORTA m /\
             commutations w = commutations m) /\
  (forall k, (k <= distance_avant (pas m))%nat ->
             exists w, machine_suite (RECULE :: tictacs k) m = Some (tt, w) /\
                       etat w = FREIN_AVANT /\
                       pas w = (pas m + Z.of_nat k) mod 32 /\
                       commutations w
                       = deplacements_avant (pas m) k ++ commutations m /\
                       (sur_pas_entier (pas w)
                        <-> k = distance_avant (pas m))) /\
  (exists w w',
      machine_suite (RECULE :: tictacs (distance_avant (pas m))) m
      = Some (tt, w) /\
      sur_pas_entier (pas w) /\
      machine TICTAC w = Some (tt, w') /\
      etat w' = ARRET /\ pas w' = pas w /\
      commutations w' = Stationnement (pas w) :: commutations w) /\
  (forall w, etat w = FREIN_AVANT -> 0 <= pas w <= 31 ->
             ~ sur_pas_entier (pas w) ->
             machine TICTAC w
             = Some (tt, avec_pas ((pas w + 1) mod 32)
                           (effet_deplacement (pas w)
                              (consigne_evenement TICTAC w)))) /\
  (forall w, etat w = FREIN_AVANT -> sur_pas_entier (pas w) ->
             machine TICTAC w
             = Some (tt, avec_etat ARRET
                           (effet_stationnement (pas w)
                              (consigne_evenement TICTAC w)))).
Proof.
  intros E H.
  set (m1 := avec_etat FREIN_AVANT (consigne_evenement RECULE m)).
  assert (R : machine RECULE m = Some (tt, m1))
    by (apply machine_MARCHE_AVANT_frein; auto).
  assert (S : forall k, machine_suite (RECULE :: tictacs k) m
                        = Some (tt, apres_suite (tictacs k) m1)).
  { intros k. cbn [machine_suite]. unfold bind. rewrite R.
    apply machine_suite_total. exact H. }
  assert (C : forall k, (k <= distance_avant (pas m))%nat -> _)
    by exact (course_frein_avant (pas m) H m1 eq_refl eq_refl).
  split; [| split; [| split; [| split]]].
  4:{ intros w Ew Hw Nw. apply machine_FREIN_AVANT_micro; try assumption.
      destruct (pas_entier (pas w)) eqn:A; [| reflexivity].
      exfalso. apply Nw. apply pas_entier_vrai. exact A. }
  4:{ intros w Ew Aw. apply machine_FREIN_AVANT_entier;
        [exact Ew | apply sur_pas_entier_pas_entier; exact Aw]. }
  - exists m1. split; [exact R |]. cbn. repeat split; reflexivity.
  - intros k K. exists (apres_suite (tictacs k) m1).
    split; [apply S |]. exact (C k K).
  - destruct (C (distance_avant (pas m)) (Nat.le_refl _)) as (C1 & C2 & C3 & C4).
    set (w := apres_suite (tictacs (distance_avant (pas m))) m1) in *.
    assert (A : sur_pas_entier (pas w)) by (apply C4; reflexivity).
    exists w.
    exists (avec_etat ARRET
              (effet_stationnement (pas w) (consigne_evenement TICTAC w))).
    split; [apply S |]. split; [exact A |].
    split; [apply machine_FREIN_AVANT_entier;
            [exact C1 | apply sur_pas_entier_pas_entier; exact A] |].
    cbn. repeat split; reflexivity.
Qed.

Lemma freinage_avant_temoin :
  let m := avec_pas 5 (avec_etat MARCHE_AVANT monde_initial) in
  etat m = MARCHE_AVANT /\ 0 <= pas m <= 31 /\
  (exists w, machine RECULE m = Some (tt, w) /\
             etat w = FREIN_AVANT /\ pas w = 5) /\
  (exists w, machine_suite [RECULE; TICTAC; TICTAC; TICTAC] m = Some (tt, w) /\
             etat w = FREIN_AVANT /\ pas w = 8 /\
             commutations w = [Deplacement 7; Deplacement 6; Deplacement 5]) /\
  (exists w w', machine_suite [RECULE; TICTAC; TICTAC; TICTAC] m = Some (tt, w) /\
                machine TICTAC w = Some (tt, w') /\
                etat w' = ARRET /\ pas w' = pas w /\
                commutations w' = Stationnement (pas w) :: commutations w).
Proof.
  intros m.
  assert (E : etat m = MARCHE_AVANT) by reflexivity.
  assert (H : 0 <= pas m <= 31) by (cbn; lia).
  destruct (freinage_avant m E H) as (A & B & C & _ & _).
  split; [exact E | split; [exact H |]]. split; [| split].
  - destruct A as [w (A1 & A2 & A3 & _)]. exists w. repeat split; assumption.
  - destruct (B 3%nat) as [w (B1 & B2 & B3 & B4 & _)]; [vm_compute; lia |].
    exists w. repeat split; assumption.
  - destruct C as [w [w' (C1 & _ & C2 & C3 & C4 & C5)]].
    exists w, w'. repeat split; assumption.
Defined.

(** The bound 8 is reached: one micro-step past a full step, going
    forward, the machine is still braking after 7 ticks. *)
Example freinage_huit_tics :
  let m := avec_pas 1 (avec_etat FREIN_AVANT monde_initial) in
  (exists w, machine_suite (tictacs 7) m = Some (tt, w) /\
             etat w = FREIN_AVANT /\ pas w = 8) /\
  (exists w, machine_suite (tictacs 8) m = Some (tt, w) /\
             etat w = ARRET /\ pas w = 8).
Proof.
  intros m.
  assert (V : pas_valide m) by (unfold pas_valide, m; cbn; lia).
  split.
  - exists (apres_suite (tictacs 7) m).
    split; [apply machine_suite_total; exact V |]. split; reflexivity.
  - exists (apres_suite (tictacs 8) m).
    split; [apply machine_suite_total; exact V |]. split; reflexivity.
Qed.

(** ** The machine only stops on a full step *)

(** The invariant of the reachable worlds. *)
Lemma apres_machine_arret (ev : Evenement) (m : Monde) :
  (etat m = ARRET -> sur_pas_entier (pas m)) ->
  etat (apres_machine ev m) = ARRET ->
  sur_pas_entier (pas (apres_machine ev m)).
Proof.
  unfold apres_machine. intros I.
  destruct (etat m) eqn:E, ev;
    try destruct (pas_entier (pas m)) eqn:A;
    cbn [etat pas avec_etat avec_pas consigne_evenement effet_deplacement
         effet_stationnement avec_PORTA avec_CCPR3L consigne_commutation];
    rewrite ?E; intros F; try discriminate F;
    first [apply I; reflexivity | apply pas_entier_vrai; exact A].
Qed.

Lemma apres_suite_arret (evs : list Evenement) :
  forall m, (etat m = ARRET -> sur_pas_entier (pas m)) ->
            etat (apres_suite evs m) = ARRET ->
            sur_pas_entier (pas (apres_suite evs m)).
Proof.
  induction evs as [| e r IH]; intros m I.
  - exact I.
  - cbn. apply IH. apply apres_machine_arret. exact I.
Qed.

(** C2. Whatever the sequence of events received from the initial world
    ([ARRET], position 0), [machine] returns each time, the position stays
    in 0..31, and whenever the state is [ARRET] the position is a multiple
    of 8: 0, 8, 16 or 24. *)
Theorem arret_sur_pas_entier (evs : list Evenement) :
  exists w, machine_suite evs monde_initial = Some (tt, w) /\
            0 <= pas w <= 31 /\
            (etat w = ARRET ->
             sur_pas_entier (pas w) /\ pas w mod 8 = 0).
Proof.
  exists (apres_suite evs monde_initial).
  split; [apply machine_suite_total; exact monde_initial_valide |].
  assert (V : pas_valide (apres_suite evs monde_initial))
    by (apply apres_suite_valide; exact monde_initial_valide).
  split; [exact V |]. intros E.
  assert (A : sur_pas_entier (pas (apres_suite evs monde_initial))).
  { apply apres_suite_arret; [| exact E]. intros _. left. reflexivity. }
  split; [exact A |].
  apply pas_entier_mod; [exact V | apply pas_entier_vrai; exact A].
Qed.

Lemma arret_sur_pas_entier_temoin :
  exists w, machine_suite (AVANCE :: tictacs 3 ++ ARRETE :: tictacs 6)
                          monde_initial = Some (tt, w) /\
            etat w = ARRET /\ pas w = 8 /\ sur_pas_entier (pas w).
Proof.
  destruct (arret_sur_pas_entier (AVANCE :: tictacs 3 ++ ARRETE :: tictacs 6))
    as [w (R & _ & S)].
  exists w. split; [exact R |].
  rewrite machine_suite_total in R by exact monde_initial_valide.
  apply (f_equal (fun o => match o with
                           | Some (_, x) => x
                           | None => monde_initial
                           end)) in R.
  cbv beta iota in R. subst w.
  split; [vm_compute; reflexivity | split; [vm_compute; reflexivity |]].
  apply S. vm_compute. reflexivity.
Defined.

(** ** Forty steps forward *)

(** C6. From [ARRET] at position 0, [AVANCE] followed by 40 [TICTAC] leaves
    the machine in [MARCHE_AVANT] at position 8, that is 40 mod 32, after
    exactly 40 calls of [commutationDeplacement] and none of
    [commutationStationnement]: one per [TICTAC], at the position before
    its increment. *)
Theorem quarante_tics (m : Monde) :
  etat m = ARRET -> pas m = 0 ->
  exists w, machine_suite (AVANCE :: tictacs 40) m = Some (tt, w) /\
            etat w = MARCHE_AVANT /\
            pas w = 8 /\ pas w = 40 mod 32 /\
            commutations w
            = rev (map (fun i => Deplacement (Z.of_nat i mod 32)) (seq 0 40))
              ++ commutations m /\
            length (commutations w) = (40 + length (commutations m))%nat.
Proof.
  destruct m as [e q n c a f1 f2 f3 evs coms]. cbn [etat pas commutations].
  intros E Q. subst e q.
  match goal with
  | |- exists w, machine_suite ?l ?x = _ /\ _ => exists (apres_suite l x)
  end.
  split.
  - apply machine_suite_total. unfold pas_valide. cbn. lia.
  - vm_compute. repeat split; reflexivity.
Qed.

Lemma quarante_tics_temoin :
  etat monde_initial = ARRET /\ pas monde_initial = 0 /\
  exists w, machine_suite (AVANCE :: tictacs 40) monde_initial = Some (tt, w) /\
            etat w = MARCHE_AVANT /\ pas w = 8 /\
            length (commutations w) = 40%nat.
Proof.
  split; [reflexivity | split; [reflexivity |]].
  destruct (quarante_tics monde_initial eq_refl eq_refl)
    as [w (R & E & P & _ & _ & L)].
  exists w. repeat split; assumption.
Defined.

(** ** The divider of the timer interrupt *)

Lemma bind_Some {A B : Type} (c : M A) (k : A -> M B) (m w : Monde) (a : A) :
  c m = Some (a, w) -> bind c k m = k a w.
Proof. intros H. unfold bind. rewrite H. reflexivity. Qed.

Lemma nombre_tictac_cons (ev : Evenement) (l : list Evenement) :
  nombre_tictac (ev :: l)
  = match ev with
    | TICTAC => S (nombre_tictac l)
    | _ => nombre_tictac l
    end.
Proof. destruct ev; reflexivity. Qed.

Lemma tir_total (m : Monde) :
  pas_valide m -> tir_tmr2 m = Some (tt, apres_tir m).
Proof.
  intros V. unfold tir_tmr2, interruptionsHP, apres_tir.
  set (m1 := avec_TMR2IF false (avec_TMR2IF true m)).
  assert (V1 : pas_valide m1) by exact V.
  set (m2 := if hp_n m1 =? 0 then apres_machine TICTAC m1 else m1).
  assert (V2 : pas_valide m2).
  { unfold m2. destruct (hp_n m1 =? 0);
      [apply apres_machine_valide |]; exact V1. }
  set (m3 := avec_hp_n (octet (hp_n m2 + 1)) m2).
  set (m4 := if 25 <? hp_n m3 then avec_hp_n 0 m3 else m3).
  assert (V4 : pas_valide m4).
  { unfold m4. destruct (25 <? hp_n m3); exact V2. }
  set (m5 := if INT2IF m4
             then apres_machine AVANCE (avec_INT2IF false m4) else m4).
  assert (V5 : pas_valide m5).
  { unfold m5. destruct (INT2IF m4);
      [apply apres_machine_valide |]; exact V4. }
  (* the hardware raises the flag, the handler reads it *)
  rewrite (bind_Some _ _ m (avec_TMR2IF true m) tt) by reflexivity.
  rewrite (bind_Some _ _ _ (avec_TMR2IF true m) true) by reflexivity.
  (* the timer block *)
  rewrite (bind_Some _ _ _ m4 tt).
  2:{ rewrite (bind_Some _ _ _ m1 tt) by reflexivity.
      rewrite (bind_Some _ _ _ m1 (hp_n m1)) by reflexivity.
      rewrite (bind_Some _ _ _ m2 tt)
        by (unfold m2; destruct (hp_n m1 =? 0);
            [apply machine_total; exact V1 | reflexivity]).
      rewrite (bind_Some _ _ _ m3 tt) by reflexivity.
      rewrite (bind_Some _ _ _ m3 (hp_n m3)) by reflexivity.
      unfold m4. destruct (25 <? hp_n m3); reflexivity. }
  (* the two direction lines *)
  rewrite (bind_Some _ _ _ m4 (INT2IF m4)) by reflexivity.
  rewrite (bind_Some _ _ _ m5 tt).
  2:{ unfold m5. destruct (INT2IF m4); [| reflexivity].
      rewrite (bind_Some _ _ _ (avec_INT2IF false m4) tt) by reflexivity.
      apply machine_total. exact V4. }
  rewrite (bind_Some _ _ _ m5 (INT1IF m5)) by reflexivity.
  destruct (INT1IF m5); [| reflexivity].
  rewrite (bind_Some _ _ _ (avec_INT1IF false m5) tt) by reflexivity.
  apply machine_total. exact V5.
Qed.

Lemma apres_tir_bilan (m : Monde) :
  pas_valide m ->
  pas_valide (apres_tir m) /\
  hp_n (apres_tir m)
  = (if 25 <? octet (hp_n m + 1) then 0 else octet (hp_n m + 1)) /\
  nombre_tictac (evenements (apres_tir m))
  = (if hp_n m =? 0 then S (nombre_tictac (evenements m))
     else nombre_tictac (evenements m)).
Proof.
  intros V. unfold apres_tir.
  set (m1 := avec_TMR2IF false (avec_TMR2IF true m)).
  set (m2 := if hp_n m1 =? 0 then apres_machine TICTAC m1 else m1).
  assert (P2 : pas_valide m2 /\ hp_n m2 = hp_n m /\
               nombre_tictac (evenements m2)
               = (if hp_n m =? 0 then S (nombre_tictac (evenements m))
                  else nombre_tictac (evenements m))).
  { unfold m2. change (hp_n m1) with (hp_n m). destruct (hp_n m =? 0).
    - destruct (apres_machine_cadre TICTAC m1) as (H1 & _ & _ & _ & H5).
      split; [apply apres_machine_valide; exact V |].
      split; [exact H1 |]. rewrite H5. apply nombre_tictac_cons.
    - split; [exact V | split; reflexivity]. }
  destruct P2 as (V2 & N2 & T2).
  set (m3 := avec_hp_n (octet (hp_n m2 + 1)) m2).
  set (m4 := if 25 <? hp_n m3 then avec_hp_n 0 m3 else m3).
  assert (P4 : pas_valide m4 /\
               hp_n m4 = (if 25 <? octet (hp_n m + 1) then 0
                          else octet (hp_n m + 1)) /\
               evenements m4 = evenements m2).
  { unfold m4. change (hp_n m3) with (octet (hp_n m2 + 1)). rewrite N2.
    destruct (25 <? octet (hp_n m + 1)).
    - split; [exact V2 | split; reflexivity].
    - split; [exact V2 |]. split; [| reflexivity].
      change (hp_n m3) with (octet (hp_n m2 + 1)). rewrite N2. reflexivity. }
  destruct P4 as (V4 & N4 & E4).
  set (m5 := if INT2IF m4
             then apres_machine AVANCE (avec_INT2IF false m4) else m4).
  assert (P5 : pas_valide m5 /\ hp_n m5 = hp_n m4 /\
               nombre_tictac (evenements m5)
               = nombre_tictac (evenements m4)).
  { unfold m5. destruct (INT2IF m4).
    - destruct (apres_machine_cadre AVANCE (avec_INT2IF false m4))
        as (H1 & _ & _ & _ & H5).
      split; [apply apres_machine_valide; exact V4 |].
      split; [exact H1 |]. rewrite H5. apply nombre_tictac_cons.
    - split; [exact V4 | split; reflexivity]. }
  destruct P5 as (V5 & N5 & T5).
  destruct (INT1IF m5).
  - destruct (apres_machine_cadre RECULE (avec_INT1IF false m5))
      as (H1 & _ & _ & _ & H5).
    split; [apply apres_machine_valide; exact V5 |].
    split; [rewrite H1; cbn [hp_n avec_INT1IF]; congruence |].
    rewrite H5, nombre_tictac_cons. cbn [evenements avec_INT1IF]. congruence.
  - split; [exact V5 |]. split; congruence.
Qed.

Lemma apres_tirs_succ (k : nat) :
  forall m, apres_tirs (S k) m = apres_tir (apres_tirs k m).
Proof.
  induction k as [| k IH]; intros m.
  - reflexivity.
  - change (apres_tirs (S (S k)) m) with (apres_tirs (S k) (apres_tir m)).
    rewrite IH. reflexivity.
Qed.

Lemma apres_tirs_valide (k : nat) :
  forall m, pas_valide m -> pas_valide (apres_tirs k m).
Proof.
  induction k as [| k IH]; intros m V.
  - exact V.
  - cbn. apply IH. apply apres_tir_bilan. exact V.
Qed.

Lemma tirs_total (k : nat) :
  forall m, pas_valide m -> tirs_tmr2 k m = Some (tt, apres_tirs k m).
Proof.
  induction k as [| k IH]; intros m V.
  - reflexivity.
  - cbn [tirs_tmr2 apres_tirs].
    rewrite (bind_Some _ _ m (apres_tir m) tt) by (apply tir_total; exact V).
    apply IH. apply apres_tir_bilan. exact V.
Qed.

(** From divider 0, the first firing emits the [TICTAC] and the divider
    then counts the firings up to 26. *)
Lemma diviseur_course (m : Monde) :
  pas_valide m -> hp_n m = 0 ->
  forall k, (k < 26)%nat ->
            hp_n (apres_tirs (S k) m) = Z.of_nat (S k) mod 26 /\
            nombre_tictac (evenements (apres_tirs (S k) m))
            = S (nombre_tictac (evenements m)).
Proof.
  intros V N. induction k as [| k IH]; intros K.
  - destruct (apres_tir_bilan m V) as (_ & H & T).
    change (apres_tirs 1 m) with (apres_tir m).
    rewrite H, T, N. split; reflexivity.
  - destruct (IH ltac:(lia)) as [H T].
    rewrite apres_tirs_succ.
    destruct (apres_tir_bilan (apres_tirs (S k) m)
                (apres_tirs_valide (S k) m V)) as (_ & H' & T').
    rewrite H', T', T, H.
    rewrite (Z.mod_small (Z.of_nat (S k))) by lia.
    rewrite octet_petit by lia.
    destruct (Z.eqb_spec (Z.of_nat (S k)) 0) as [Z0 | _]; [lia |].
    split; [| reflexivity].
    destruct (Z.ltb_spec 25 (Z.of_nat (S k) + 1)) as [G | G].
    + replace (Z.of_nat (S (S k))) with 26 by lia. reflexivity.
    + rewrite Z.mod_small by lia. lia.
Qed.

(** C3, as the code has it. In a group of 26 consecutive firings of timer 2
    that starts with the divider at 0, the first firing dispatches exactly
    one [TICTAC] to [machine], firings 2 to 26 dispatch none, and after
    firing 26 the divider is back at 0 (on a valid position, so that the
    next group starts the same way). *)
Theorem diviseur_26 (m : Monde) :
  pas_valide m -> hp_n m = 0 ->
  (exists w, tir_tmr2 m = Some (tt, w) /\
             nombre_tictac (evenements w)
             = S (nombre_tictac (evenements m))) /\
  (forall k, (1 <= k <= 25)%nat ->
             exists w w', tirs_tmr2 k m = Some (tt, w) /\
                          tir_tmr2 w = Some (tt, w') /\
                          nombre_tictac (evenements w')
                          = nombre_tictac (evenements w)) /\
  (exists w, tirs_tmr2 26 m = Some (tt, w) /\
             hp_n w = 0 /\ pas_valide w /\
             nombre_tictac (evenements w)
             = S (nombre_tictac (evenements m))).
Proof.
  intros V N. pose proof (diviseur_course m V N) as C.
  split; [| split].
  - exists (apres_tir m). split; [apply tir_total; exact V |].
    apply (C 0%nat). lia.
  - intros k K. exists (apres_tirs k m), (apres_tir (apres_tirs k m)).
    split; [apply tirs_total; exact V |].
    split; [apply tir_total; apply apres_tirs_valide; exact V |].
    destruct k as [| j]; [lia |].
    destruct (C j ltac:(lia)) as [_ T1].
    destruct (C (S j) ltac:(lia)) as [_ T2].
    rewrite <- apres_tirs_succ. congruence.
  - exists (apres_tirs 26 m). split; [apply tirs_total; exact V |].
    destruct (C 25%nat ltac:(lia)) as [H T].
    split; [exact H |]. split; [apply apres_tirs_valide; exact V | exact T].
Qed.

Lemma diviseur_26_temoin :
  pas_valide monde_initial /\ hp_n monde_initial = 0 /\
  (exists w, tir_tmr2 monde_initial = Some (tt, w) /\
             nombre_tictac (evenements w) = 1%nat) /\
  (exists w w', tirs_tmr2 25 monde_initial = Some (tt, w) /\
                tir_tmr2 w = Some (tt, w') /\
                nombre_tictac (evenements w')
                = nombre_tictac (evenements w)) /\
  (exists w, tirs_tmr2 26 monde_initial = Some (tt, w) /\ hp_n w = 0).
Proof.
  split; [exact monde_initial_valide | split; [reflexivity |]].
  destruct (diviseur_26 monde_initial monde_initial_valide eq_refl)
    as (A & B & C).
  split; [| split].
  - exact A.
  - apply (B 25%nat). lia.
  - destruct C as [w (C1 & C2 & _)]. exists w. split; assumption.
Defined.

(** C3, as it is worded, fails on the initial world: it is not the case
    that the first firing dispatches no [TICTAC] (it dispatches the one of
    the group), and it is not the case that firing 26 dispatches one. *)
Lemma diviseur_26_contre_exemple :
  ~ (exists w, tirs_tmr2 1 monde_initial = Some (tt, w) /\
               nombre_tictac (evenements w)
               = nombre_tictac (evenements monde_initial)) /\
  ~ (exists w w', tirs_tmr2 25 monde_initial = Some (tt, w) /\
                  tir_tmr2 w = Some (tt, w') /\
                  nombre_tictac (evenements w')
                  = S (nombre_tictac (evenements w))).
Proof.
  split.
  - intros [w [R T]]. vm_compute in R.
    apply (f_equal (fun o => match o with
                             | Some (_, x) => nombre_tictac (evenements x)
                             | None => O
                             end)) in R.
    cbv beta iota in R. rewrite T in R. vm_compute in R. discriminate R.
  - intros [w [w' (R & R' & T)]].
    rewrite tirs_total in R by exact monde_initial_valide.
    apply (f_equal (fun o => match o with
                             | Some (_, x) => x
                             | None => monde_initial
                             end)) in R.
    cbv beta iota in R. subst w.
    rewrite tir_total in R'
      by (apply apres_tirs_valide; exact monde_initial_valide).
    apply (f_equal (fun o => match o with
                             | Some (_, x) => nombre_tictac (evenements x)
                             | None => O
                             end)) in R'.
    cbv beta iota in R'. rewrite T in R'. vm_compute in R'. discriminate R'.
Qed.

(** * More of the state machine *)

(** ** The motor side is all that [machine] reads *)

Lemma apres_machine_meme_moteur (ev : Evenement) (a b : Monde) :
  meme_moteur a b ->
  meme_moteur (apres_machine ev a) (apres_machine ev b).
Proof.
  destruct a as [e1 p1 n1 c1 a1 t1 i1 j1 l1 k1].
  destruct b as [e2 p2 n2 c2 a2 t2 i2 j2 l2 k2].
  unfold meme_moteur. cbn. intros (E & P & C & A & K). subst.
  unfold apres_machine. cbn [etat pas].
  destruct e2, ev; try destruct (pas_entier p2); cbn; repeat split; reflexivity.
Qed.

Lemma apres_suite_meme_moteur (evs : list Evenement) :
  forall a b, meme_moteur a b ->
              meme_moteur (apres_suite evs a) (apres_suite evs b).
Proof.
  induction evs as [| e r IH]; intros a b H.
  - exact H.
  - cbn. apply IH. apply apres_machine_meme_moteur. exact H.
Qed.

Lemma meme_moteur_refl (m : Monde) : meme_moteur m m.
Proof. unfold meme_moteur. repeat split; reflexivity. Qed.

Lemma meme_moteur_sym (a b : Monde) : meme_moteur a b -> meme_moteur b a.
Proof.
  unfold meme_moteur. intros (E & P & C & A & K). repeat split; congruence.
Qed.

Lemma apres_tictacs_ARRET_moteur (k : nat) :
  forall m, etat m = ARRET -> meme_moteur (apres_suite (tictacs k) m) m.
Proof.
  induction k as [| k IH]; intros m E.
  - apply meme_moteur_refl.
  - change (apres_suite (tictacs (S k)) m)
      with (apres_suite (tictacs k) (apres_machine TICTAC m)).
    assert (A : apres_machine TICTAC m = consigne_evenement TICTAC m).
    { unfold apres_machine. rewrite E. reflexivity. }
    rewrite A.
    apply (meme_moteur_trans _ (consigne_evenement TICTAC m)).
    + apply IH. exact E.
    + apply consigne_meme_moteur.
Qed.

(** ** Outputs *)

Lemma decalage_3_indice (p : Z) :
  0 <= p <= 31 -> Z.shiftr p 3 = indice_commutateurs p.
Proof.
  intros H. rewrite indice_commutateurs_div by exact H. apply decalage_3.
Qed.

Lemma masque_0F_indice (p : Z) : Z.land p 15 = indice_cos p.
Proof. rewrite indice_cos_mod. apply masque_0F. Qed.

Lemma effet_stationnement_sorties (p : Z) (m : Monde) :
  0 <= p <= 31 -> pas m = p ->
  sorties_stationnement (avec_etat ARRET (effet_stationnement p m)).
Proof.
  intros H P. pose proof (indice_commutateurs_borne p H) as B.
  unfold sorties_stationnement.
  cbn [CCPR3L PORTA pas avec_etat effet_stationnement avec_PORTA avec_CCPR3L
       consigne_commutation].
  split; [reflexivity |]. rewrite P, (decalage_3_indice p H).
  apply nth_error_nth'. simpl length. lia.
Qed.

Lemma effet_deplacement_sorties (p q : Z) (m : Monde) :
  0 <= p <= 31 ->
  sorties_deplacement p (avec_pas q (effet_deplacement p m)).
Proof.
  intros H. pose proof (indice_commutateurs_borne p H) as B.
  pose proof (indice_cos_borne p) as C.
  unfold sorties_deplacement.
  cbn [CCPR3L PORTA avec_pas effet_deplacement avec_PORTA avec_CCPR3L
       consigne_commutation].
  rewrite (decalage_3_indice p H), masque_0F_indice.
  split; apply nth_error_nth'; simpl length; lia.
Qed.

Lemma sorties_stationnement_meme_moteur (a b : Monde) :
  meme_moteur a b -> sorties_stationnement b -> sorties_stationnement a.
Proof.
  unfold meme_moteur, sorties_stationnement.
  intros (_ & P & C & A & _) [S1 S2]. rewrite P, C, A. split; assumption.
Qed.

(** ** A braking motor ends parked, and stays so *)

Lemma frein_puis_arret (m : Monde) (j : nat) :
  etat m = FREIN_AVANT \/ etat m = FREIN_ARRIERE -> 0 <= pas m <= 31 ->
  (8 <= j)%nat ->
  etat (apres_suite (tictacs j) m) = ARRET /\
  sur_pas_entier (pas (apres_suite (tictacs j) m)) /\
  sorties_stationnement (apres_suite (tictacs j) m).
Proof.
  intros E H J.
  assert (G : exists d, (d <= 7)%nat /\
                        (etat (apres_suite (tictacs d) m) = FREIN_AVANT \/
                         etat (apres_suite (tictacs d) m) = FREIN_ARRIERE) /\
                        sur_pas_entier (pas (apres_suite (tictacs d) m))).
  { destruct E as [E | E].
    - exists (distance_avant (pas m)).
      destruct (course_frein_avant (pas m) H m E eq_refl
                  (distance_avant (pas m)) (Nat.le_refl _)) as (C1 & _ & _ & C4).
      split; [apply distance_avant_borne |].
      split; [left; exact C1 | apply C4; reflexivity].
    - exists (distance_arriere (pas m)).
      destruct (course_frein_arriere (pas m) H m E eq_refl
                  (distance_arriere (pas m)) (Nat.le_refl _)) as (C1 & _ & _ & C4).
      split; [apply distance_arriere_borne |].
      split; [right; exact C1 | apply C4; reflexivity]. }
  destruct G as (d & D & F & A).
  set (w := apres_suite (tictacs d) m) in *.
  set (w' := avec_etat ARRET
               (effet_stationnement (pas w) (consigne_evenement TICTAC w))).
  assert (T : apres_machine TICTAC w = w').
  { unfold apres_machine. rewrite (sur_pas_entier_pas_entier _ A).
    destruct F as [F | F]; rewrite F; reflexivity. }
  assert (V : 0 <= pas w <= 31) by (unfold sur_pas_entier in A; lia).
  assert (S' : sorties_stationnement w')
    by (apply effet_stationnement_sorties; [exact V | reflexivity]).
  replace j with (d + (1 + (j - S d)))%nat by lia.
  unfold tictacs.
  rewrite (repeat_app TICTAC d), (repeat_app TICTAC 1).
  rewrite !apres_suite_app. fold (tictacs d). fold w.
  change (apres_suite (repeat TICTAC 1) w) with (apres_machine TICTAC w).
  rewrite T. fold (tictacs (j - S d)).
  pose proof (apres_tictacs_ARRET_moteur (j - S d) w' eq_refl) as Q.
  destruct Q as (Q1 & Q2 & Q3 & Q4 & Q5).
  split; [rewrite Q1; reflexivity |].
  split; [rewrite Q2; exact A |].
  apply (sorties_stationnement_meme_moteur _ w'); [| exact S'].
  unfold meme_moteur. repeat split; assumption.
Qed.

(** X1. Braking backward mirrors braking forward.  In [MARCHE_ARRIERE] at
    a position in 0..31, [AVANCE] or [ARRETE] puts the machine in
    [FREIN_ARRIERE]; each following [TICTAC] received off a full step
    calls [commutationDeplacement] at the current position and steps the
    position back modulo 32; the first [TICTAC] received on a full step
    calls [commutationStationnement] there, keeps the position, leaves
    the parked outputs and goes to [ARRET]. *)
Theorem freinage_arriere (m : Monde) (ev : Evenement) :
  etat m = MARCHE_ARRIERE -> 0 <= pas m <= 31 ->
  ev = AVANCE \/ ev = ARRETE ->
  (forall k, (k <= distance_arriere (pas m))%nat ->
             exists w, machine_suite (ev :: tictacs k) m = Some (tt, w) /\
                       etat w = FREIN_ARRIERE /\
                       pas w = (pas m - Z.of_nat k) mod 32 /\
                       commutations w
                       = deplacements_arriere (pas m) k ++ commutations m /\
                       (sur_pas_entier (pas w)
                        <-> k = distance_arriere (pas m))) /\
  (exists w w',
      machine_suite (ev :: tictacs (distance_arriere (pas m))) m
      = Some (tt, w) /\
      machine TICTAC w = Some (tt, w') /\
      etat w' = ARRET /\ pas w' = pas w /\ sur_pas_entier (pas w') /\
      commutations w' = Stationnement (pas w) :: commutations w /\
      sorties_stationnement w').
Proof.
  intros E H Hev.
  set (m1 := avec_etat FREIN_ARRIERE (consigne_evenement ev m)).
  assert (R : machine ev m = Some (tt, m1))
    by (apply machine_MARCHE_ARRIERE_frein; assumption).
  assert (S : forall k, machine_suite (ev :: tictacs k) m
                        = Some (tt, apres_suite (tictacs k) m1)).
  { intros k. cbn [machine_suite].
    rewrite (bind_Some _ _ m m1 tt R). apply machine_suite_total. exact H. }
  assert (C : forall k, (k <= distance_arriere (pas m))%nat -> _)
    by exact (course_frein_arriere (pas m) H m1 eq_refl eq_refl).
  split.
  - intros k K. exists (apres_suite (tictacs k) m1).
    split; [apply S |]. exact (C k K).
  - destruct (C (distance_arriere (pas m)) (Nat.le_refl _))
      as (C1 & C2 & C3 & C4).
    set (w := apres_suite (tictacs (distance_arriere (pas m))) m1) in *.
    assert (A : sur_pas_entier (pas w)) by (apply C4; reflexivity).
    assert (V : 0 <= pas w <= 31) by (unfold sur_pas_entier in A; lia).
    exists w.
    exists (avec_etat ARRET
              (effet_stationnement (pas w) (consigne_evenement TICTAC w))).
    split; [apply S |].
    split; [apply machine_FREIN_ARRIERE_entier;
            [exact C1 | apply sur_pas_entier_pas_entier; exact A] |].
    split; [reflexivity |]. split; [reflexivity |]. split; [exact A |].
    split; [reflexivity |].
    apply effet_stationnement_sorties; [exact V | reflexivity].
Qed.

Lemma freinage_arriere_temoin :
  let m := avec_pas 18 (avec_etat MARCHE_ARRIERE monde_initial) in
  etat m = MARCHE_ARRIERE /\ 0 <= pas m <= 31 /\
  (exists w, machine_suite [AVANCE; TICTAC] m = Some (tt, w) /\
             etat w = FREIN_ARRIERE /\ pas w = 17 /\
             commutations w = [Deplacement 18]) /\
  (exists w w', machine_suite [AVANCE; TICTAC; TICTAC] m = Some (tt, w) /\
                machine TICTAC w = Some (tt, w') /\
                etat w' = ARRET /\ pas w' = pas w /\
                sorties_stationnement w').
Proof.
  intros m.
  assert (E : etat m = MARCHE_ARRIERE) by reflexivity.
  assert (H : 0 <= pas m <= 31) by (cbn; lia).
  destruct (freinage_arriere m AVANCE E H (or_introl eq_refl)) as (B & C).
  split; [exact E | split; [exact H |]]. split.
  - destruct (B 1%nat) as [w (B1 & B2 & B3 & B4 & _)]; [vm_compute; lia |].
    exists w. repeat split; assumption.
  - destruct C as [w [w' (C1 & C2 & C3 & C4 & _ & _ & C7)]].
    exists w, w'. repeat split; try assumption; apply C7.
Defined.

(** ** Where and when a braking motor stops *)

(** On a full step, a braking machine parks on the next [TICTAC] and the
    following ones change nothing. *)
Lemma stationne_et_reste (w : Monde) (r : nat) :
  etat w = FREIN_AVANT \/ etat w = FREIN_ARRIERE ->
  sur_pas_entier (pas w) ->
  etat (apres_suite (tictacs (S r)) w) = ARRET /\
  pas (apres_suite (tictacs (S r)) w) = pas w /\
  commutations (apres_suite (tictacs (S r)) w)
  = Stationnement (pas w) :: commutations w /\
  sorties_stationnement (apres_suite (tictacs (S r)) w).
Proof.
  intros F A.
  set (w' := avec_etat ARRET
               (effet_stationnement (pas w) (consigne_evenement TICTAC w))).
  assert (T : apres_machine TICTAC w = w').
  { unfold apres_machine. rewrite (sur_pas_entier_pas_entier _ A).
    destruct F as [F | F]; rewrite F; reflexivity. }
  assert (V : 0 <= pas w <= 31) by (unfold sur_pas_entier in A; lia).
  assert (S' : sorties_stationnement w')
    by (apply effet_stationnement_sorties; [exact V | reflexivity]).
  change (apres_suite (tictacs (S r)) w)
    with (apres_suite (tictacs r) (apres_machine TICTAC w)).
  rewrite T.
  pose proof (apres_tictacs_ARRET_moteur r w' eq_refl) as Q.
  pose proof (sorties_stationnement_meme_moteur _ _ Q S') as S''.
  destruct Q as (Q1 & Q2 & _ & _ & Q5).
  split; [rewrite Q1; reflexivity |].
  split; [rewrite Q2; reflexivity |].
  split; [rewrite Q5; reflexivity | exact S''].
Qed.

Lemma frein_avant_complet (m : Monde) (j : nat) :
  etat m = FREIN_AVANT -> 0 <= pas m <= 31 ->
  (distance_avant (pas m) < j)%nat ->
  etat (apres_suite (tictacs j) m) = ARRET /\
  pas (apres_suite (tictacs j) m)
  = (pas m + Z.of_nat (distance_avant (pas m))) mod 32 /\
  commutations (apres_suite (tictacs j) m)
  = Stationnement ((pas m + Z.of_nat (distance_avant (pas m))) mod 32)
    :: deplacements_avant (pas m) (distance_avant (pas m))
    ++ commutations m /\
  sorties_stationnement (apres_suite (tictacs j) m).
Proof.
  intros E H J. set (d := distance_avant (pas m)) in *.
  destruct (course_frein_avant (pas m) H m E eq_refl d (Nat.le_refl _))
    as (C1 & C2 & C3 & C4).
  replace j with (d + S (j - S d))%nat by lia.
  unfold tictacs. rewrite (repeat_app TICTAC d), apres_suite_app.
  fold (tictacs d). fold (tictacs (S (j - S d))).
  set (w := apres_suite (tictacs d) m) in *.
  destruct (stationne_et_reste w (j - S d) (or_introl C1)
              ltac:(apply C4; reflexivity)) as (R1 & R2 & R3 & R4).
  rewrite R2, R3, C2, C3.
  split; [exact R1 |]. split; [reflexivity |].
  split; [reflexivity | exact R4].
Qed.

Lemma frein_arriere_complet (m : Monde) (j : nat) :
  etat m = FREIN_ARRIERE -> 0 <= pas m <= 31 ->
  (distance_arriere (pas m) < j)%nat ->
  etat (apres_suite (tictacs j) m) = ARRET /\
  pas (apres_suite (tictacs j) m)
  = (pas m - Z.of_nat (distance_arriere (pas m))) mod 32 /\
  commutations (apres_suite (tictacs j) m)
  = Stationnement ((pas m - Z.of_nat (distance_arriere (pas m))) mod 32)
    :: deplacements_arriere (pas m) (distance_arriere (pas m))
    ++ commutations m /\
  sorties_stationnement (apres_suite (tictacs j) m).
Proof.
  intros E H J. set (d := distance_arriere (pas m)) in *.
  destruct (course_frein_arriere (pas m) H m E eq_refl d (Nat.le_refl _))
    as (C1 & C2 & C3 & C4).
  replace j with (d + S (j - S d))%nat by lia.
  unfold tictacs. rewrite (repeat_app TICTAC d), apres_suite_app.
  fold (tictacs d). fold (tictacs (S (j - S d))).
  set (w := apres_suite (tictacs d) m) in *.
  destruct (stationne_et_reste w (j - S d) (or_intror C1)
              ltac:(apply C4; reflexivity)) as (R1 & R2 & R3 & R4).
  rewrite R2, R3, C2, C3.
  split; [exact R1 |]. split; [reflexivity |].
  split; [reflexivity | exact R4].
Qed.

(** C8. A braking motor stops within 8 ticks, on the next full step in
    its direction.  From [FREIN_AVANT] or [FREIN_ARRIERE] at a position
    in 0..31 there is a number [k] of [TICTAC], between 1 and 8, after
    which the machine is in [ARRET] on a full step, and it is still there
    after any larger number of them, 8 in particular.  Going forward,
    [k] is one more than the distance [(- p) mod 8] to the full step
    ahead: before the [k]-th tick the machine is still in [FREIN_AVANT],
    [i] steps further, off a full step until the last of them; from the
    [k]-th tick on it is in [ARRET] at [(p + (- p) mod 8) mod 32], having
    called [commutationDeplacement] at each position passed and then
    [commutationStationnement] there.  Going backward the same holds
    with the distance [p mod 8] and the position [p - p mod 8]. *)
Theorem freinage_borne (m : Monde) :
  etat m = FREIN_AVANT \/ etat m = FREIN_ARRIERE -> 0 <= pas m <= 31 ->
  exists k, (1 <= k <= 8)%nat /\
            (exists w, machine_suite (tictacs k) m = Some (tt, w) /\
                       etat w = ARRET /\ sur_pas_entier (pas w)) /\
            (forall j, (k <= j)%nat ->
                       exists w, machine_suite (tictacs j) m = Some (tt, w) /\
                                 etat w = ARRET /\ sur_pas_entier (pas w)) /\
            (etat m = FREIN_AVANT ->
             k = S (distance_avant (pas m)) /\
             (forall i, (i < k)%nat ->
                        exists w,
                          machine_suite (tictacs i) m = Some (tt, w) /\
                          etat w = FREIN_AVANT /\
                          pas w = (pas m + Z.of_nat i) mod 32 /\
                          (sur_pas_entier (pas w) <-> S i = k)) /\
             (forall j, (k <= j)%nat ->
                        exists w,
                          machine_suite (tictacs j) m = Some (tt, w) /\
                          etat w = ARRET /\
                          pas w = (pas m + Z.of_nat (distance_avant (pas m)))
                                  mod 32 /\
                          commutations w
                          = Stationnement (pas w)
                            :: deplacements_avant (pas m)
                                 (distance_avant (pas m))
                            ++ commutations m)) /\
            (etat m = FREIN_ARRIERE ->
             k = S (distance_arriere (pas m)) /\
             (forall i, (i < k)%nat ->
                        exists w,
                          machine_suite (tictacs i) m = Some (tt, w) /\
                          etat w = FREIN_ARRIERE /\
                          pas w = (pas m - Z.of_nat i) mod 32 /\
                          (sur_pas_entier (pas w) <-> S i = k)) /\
             (forall j, (k <= j)%nat ->
                        exists w,
                          machine_suite (tictacs j) m = Some (tt, w) /\
                          etat w = ARRET /\
                          pas w = (pas m - Z.of_nat (distance_arriere (pas m)))
                                  mod 32 /\
                          commutations w
                          = Stationnement (pas w)
                            :: deplacements_arriere (pas m)
                                 (distance_arriere (pas m))
                            ++ commutations m)).
Proof.
  intros E H.
  assert (T : forall j, machine_suite (tictacs j) m
                        = Some (tt, apres_suite (tictacs j) m))
    by (intros j; apply machine_suite_total; exact H).
  destruct E as [E | E].
  - set (d := distance_avant (pas m)).
    pose proof (distance_avant_borne (pas m)) as D. fold d in D.
    assert (L : forall j, (S d <= j)%nat -> _)
      by exact (fun j J => frein_avant_complet m j E H J).
    assert (A : forall j, (S d <= j)%nat ->
                          sur_pas_entier (pas (apres_suite (tictacs j) m))).
    { intros j J. destruct (L j J) as (_ & L2 & _). rewrite L2.
      destruct (course_frein_avant (pas m) H m E eq_refl d (Nat.le_refl _))
        as (_ & C2 & _ & C4).
      unfold d in C2. rewrite <- C2. apply C4. reflexivity. }
    exists (S d). split; [lia |]. split; [| split; [| split]].
    + exists (apres_suite (tictacs (S d)) m). split; [apply T |].
      split; [apply (L (S d)); lia | apply A; lia].
    + intros j J. exists (apres_suite (tictacs j) m). split; [apply T |].
      split; [apply (L j J) | apply A; exact J].
    + intros _. split; [reflexivity |]. split.
      * intros i I. exists (apres_suite (tictacs i) m). split; [apply T |].
        destruct (course_frein_avant (pas m) H m E eq_refl i ltac:(fold d; lia))
          as (C1 & C2 & _ & C4).
        split; [exact C1 |]. split; [exact C2 |].
        rewrite C4. fold d. split; intros Q; lia.
      * intros j J. exists (apres_suite (tictacs j) m). split; [apply T |].
        destruct (L j J) as (L1 & L2 & L3 & _).
        split; [exact L1 |]. split; [exact L2 |]. rewrite L2. exact L3.
    + intros F. rewrite E in F. discriminate F.
  - set (d := distance_arriere (pas m)).
    pose proof (distance_arriere_borne (pas m)) as D. fold d in D.
    assert (L : forall j, (S d <= j)%nat -> _)
      by exact (fun j J => frein_arriere_complet m j E H J).
    assert (A : forall j, (S d <= j)%nat ->
                          sur_pas_entier (pas (apres_suite (tictacs j) m))).
    { intros j J. destruct (L j J) as (_ & L2 & _). rewrite L2.
      destruct (course_frein_arriere (pas m) H m E eq_refl d (Nat.le_refl _))
        as (_ & C2 & _ & C4).
      unfold d in C2. rewrite <- C2. apply C4. reflexivity. }
    exists (S d). split; [lia |]. split; [| split; [| split]].
    + exists (apres_suite (tictacs (S d)) m). split; [apply T |].
      split; [apply (L (S d)); lia | apply A; lia].
    + intros j J. exists (apres_suite (tictacs j) m). split; [apply T |].
      split; [apply (L j J) | apply A; exact J].
    + intros F. rewrite E in F. discriminate F.
    + intros _. split; [reflexivity |]. split.
      * intros i I. exists (apres_suite (tictacs i) m). split; [apply T |].
        destruct (course_frein_arriere (pas m) H m E eq_refl i
                    ltac:(fold d; lia)) as (C1 & C2 & _ & C4).
        split; [exact C1 |]. split; [exact C2 |].
        rewrite C4. fold d. split; intros Q; lia.
      * intros j J. exists (apres_suite (tictacs j) m). split; [apply T |].
        destruct (L j J) as (L1 & L2 & L3 & _).
        split; [exact L1 |]. split; [exact L2 |]. rewrite L2. exact L3.
Qed.

Lemma freinage_borne_temoin :
  let m := avec_pas 9 (avec_etat FREIN_AVANT monde_initial) in
  let m' := avec_pas 9 (avec_etat FREIN_ARRIERE monde_initial) in
  (etat m = FREIN_AVANT \/ etat m = FREIN_ARRIERE) /\ 0 <= pas m <= 31 /\
  (etat m' = FREIN_AVANT \/ etat m' = FREIN_ARRIERE) /\ 0 <= pas m' <= 31 /\
  (exists w, machine_suite (tictacs 8) m = Some (tt, w) /\
             etat w = ARRET /\ pas w = 16) /\
  (exists w, machine_suite (tictacs 2) m' = Some (tt, w) /\
             etat w = ARRET /\ pas w = 8).
Proof.
  intros m m'.
  assert (E : etat m = FREIN_AVANT \/ etat m = FREIN_ARRIERE)
    by (left; reflexivity).
  assert (H : 0 <= pas m <= 31) by (cbn; lia).
  assert (E' : etat m' = FREIN_AVANT \/ etat m' = FREIN_ARRIERE)
    by (right; reflexivity).
  assert (H' : 0 <= pas m' <= 31) by (cbn; lia).
  split; [exact E | split; [exact H |]].
  split; [exact E' | split; [exact H' |]].
  split.
  - destruct (freinage_borne m E H) as (k & K & _ & _ & A & _).
    destruct (A eq_refl) as (_ & _ & L).
    destruct (L 8%nat ltac:(lia)) as [w (R & S1 & S2 & _)].
    exists w. split; [exact R | split; [exact S1 | exact S2]].
  - destruct (freinage_borne m' E' H') as (k & K & _ & _ & _ & A).
    destruct (A eq_refl) as (Kd & _ & L).
    assert (K2 : (k <= 2)%nat) by (rewrite Kd; vm_compute; lia).
    destruct (L 2%nat K2) as [w (R & S1 & S2 & _)].
    exists w. split; [exact R | split; [exact S1 | exact S2]].
Defined.

(** X2. A running motor that is told to stop, or to go the other way,
    never reverses: it brakes in the direction it was running and parks.
    Running forward, after [RECULE] and [j] [TICTAC] the machine is in
    [FREIN_AVANT], [j] steps further forward, as long as [j] does not
    exceed the distance [(- p) mod 8] to the full step ahead, and beyond
    that it is in [ARRET] on that full step with the parked outputs; the
    commutation calls are those of the steps forward, then the parking.
    Running backward, after [AVANCE], the same holds towards the full
    step behind.  So from 8 ticks on the machine is in [ARRET]; and
    [ARRETE] in place of the direction event leaves the same state,
    position, outputs and commutation calls after any number of
    [TICTAC]. *)
Theorem arret_ou_renversement (m : Monde) (ev : Evenement) (j : nat) :
  0 <= pas m <= 31 ->
  (etat m = MARCHE_AVANT /\ ev = RECULE) \/
  (etat m = MARCHE_ARRIERE /\ ev = AVANCE) ->
  (exists w w', machine_suite (ev :: tictacs j) m = Some (tt, w) /\
                machine_suite (ARRETE :: tictacs j) m = Some (tt, w') /\
                meme_moteur w w') /\
  ((8 <= j)%nat ->
   exists w, machine_suite (ev :: tictacs j) m = Some (tt, w) /\
             etat w = ARRET /\ sur_pas_entier (pas w) /\
             sorties_stationnement w) /\
  (etat m = MARCHE_AVANT ->
   exists w,
     machine_suite (ev :: tictacs j) m = Some (tt, w) /\
     ((j <= distance_avant (pas m))%nat ->
      etat w = FREIN_AVANT /\
      pas w = (pas m + Z.of_nat j) mod 32 /\
      commutations w = deplacements_avant (pas m) j ++ commutations m) /\
     ((distance_avant (pas m) < j)%nat ->
      etat w = ARRET /\
      pas w = (pas m + Z.of_nat (distance_avant (pas m))) mod 32 /\
      commutations w
      = Stationnement (pas w)
        :: deplacements_avant (pas m) (distance_avant (pas m))
        ++ commutations m /\
      sorties_stationnement w)) /\
  (etat m = MARCHE_ARRIERE ->
   exists w,
     machine_suite (ev :: tictacs j) m = Some (tt, w) /\
     ((j <= distance_arriere (pas m))%nat ->
      etat w = FREIN_ARRIERE /\
      pas w = (pas m - Z.of_nat j) mod 32 /\
      commutations w = deplacements_arriere (pas m) j ++ commutations m) /\
     ((distance_arriere (pas m) < j)%nat ->
      etat w = ARRET /\
      pas w = (pas m - Z.of_nat (distance_arriere (pas m))) mod 32 /\
      commutations w
      = Stationnement (pas w)
        :: deplacements_arriere (pas m) (distance_arriere (pas m))
        ++ commutations m /\
      sorties_stationnement w)).
Proof.
  intros H D.
  assert (T : forall e, machine_suite (e :: tictacs j) m
                        = Some (tt, apres_suite (e :: tictacs j) m))
    by (intros e; apply machine_suite_total; exact H).
  assert (F : exists f, (f = FREIN_AVANT \/ f = FREIN_ARRIERE) /\
                        apres_machine ev m
                        = avec_etat f (consigne_evenement ev m) /\
                        apres_machine ARRETE m
                        = avec_etat f (consigne_evenement ARRETE m)).
  { destruct D as [[E V] | [E V]]; subst ev.
    - exists FREIN_AVANT. unfold apres_machine. rewrite E. auto.
    - exists FREIN_ARRIERE. unfold apres_machine. rewrite E. auto. }
  destruct F as (f & Ff & F1 & F2).
  split; [| split; [| split]].
  - exists (apres_suite (ev :: tictacs j) m).
    exists (apres_suite (ARRETE :: tictacs j) m).
    split; [apply T |]. split; [apply T |].
    cbn [apres_suite fold_left]. apply apres_suite_meme_moteur.
    rewrite F1, F2. unfold meme_moteur. cbn. repeat split; reflexivity.
  - intros J. exists (apres_suite (ev :: tictacs j) m).
    split; [apply T |].
    change (apres_suite (ev :: tictacs j) m)
      with (apres_suite (tictacs j) (apres_machine ev m)).
    rewrite F1. apply frein_puis_arret; [| exact H | exact J].
    destruct Ff; subst f; [left | right]; reflexivity.
  - intros E. exists (apres_suite (ev :: tictacs j) m).
    split; [apply T |].
    change (apres_suite (ev :: tictacs j) m)
      with (apres_suite (tictacs j) (apres_machine ev m)).
    assert (F3 : apres_machine ev m
                 = avec_etat FREIN_AVANT (consigne_evenement ev m)).
    { destruct D as [[_ V] | [E' _]]; [| congruence].
      subst ev. unfold apres_machine. rewrite E. reflexivity. }
    rewrite F3.
    set (m1 := avec_etat FREIN_AVANT (consigne_evenement ev m)).
    split.
    + intros J.
      destruct (course_frein_avant (pas m) H m1 eq_refl eq_refl j J)
        as (C1 & C2 & C3 & _).
      split; [exact C1 | split; [exact C2 | exact C3]].
    + intros J.
      destruct (frein_avant_complet m1 j eq_refl H J) as (L1 & L2 & L3 & L4).
      split; [exact L1 |]. split; [exact L2 |].
      split; [rewrite L2; exact L3 | exact L4].
  - intros E. exists (apres_suite (ev :: tictacs j) m).
    split; [apply T |].
    change (apres_suite (ev :: tictacs j) m)
      with (apres_suite (tictacs j) (apres_machine ev m)).
    assert (F3 : apres_machine ev m
                 = avec_etat FREIN_ARRIERE (consigne_evenement ev m)).
    { destruct D as [[E' _] | [_ V]]; [congruence |].
      subst ev. unfold apres_machine. rewrite E. reflexivity. }
    rewrite F3.
    set (m1 := avec_etat FREIN_ARRIERE (consigne_evenement ev m)).
    split.
    + intros J.
      destruct (course_frein_arriere (pas m) H m1 eq_refl eq_refl j J)
        as (C1 & C2 & C3 & _).
      split; [exact C1 | split; [exact C2 | exact C3]].
    + intros J.
      destruct (frein_arriere_complet m1 j eq_refl H J) as (L1 & L2 & L3 & L4).
      split; [exact L1 |]. split; [exact L2 |].
      split; [rewrite L2; exact L3 | exact L4].
Qed.

Lemma arret_ou_renversement_temoin :
  let m := avec_pas 9 (avec_etat MARCHE_AVANT monde_initial) in
  let m' := avec_pas 9 (avec_etat MARCHE_ARRIERE monde_initial) in
  0 <= pas m <= 31 /\ etat m = MARCHE_AVANT /\
  0 <= pas m' <= 31 /\ etat m' = MARCHE_ARRIERE /\
  (exists w, machine_suite (RECULE :: tictacs 3) m = Some (tt, w) /\
             etat w = FREIN_AVANT /\ pas w = 12 /\
             commutations w
             = [Deplacement 11; Deplacement 10; Deplacement 9]) /\
  (exists w, machine_suite (RECULE :: tictacs 8) m = Some (tt, w) /\
             etat w = ARRET /\ pas w = 16 /\ sorties_stationnement w) /\
  (exists w, machine_suite (AVANCE :: tictacs 2) m' = Some (tt, w) /\
             etat w = ARRET /\ pas w = 8 /\
             commutations w = [Stationnement 8; Deplacement 9]).
Proof.
  intros m m'.
  assert (H : 0 <= pas m <= 31) by (cbn; lia).
  assert (H' : 0 <= pas m' <= 31) by (cbn; lia).
  split; [exact H | split; [reflexivity |]].
  split; [exact H' | split; [reflexivity |]].
  split; [| split].
  - destruct (arret_ou_renversement m RECULE 3 H
                (or_introl (conj eq_refl eq_refl))) as (_ & _ & A & _).
    destruct (A eq_refl) as [w (R & B & _)].
    destruct (B ltac:(vm_compute; lia)) as (B1 & B2 & B3).
    exists w. split; [exact R |]. split; [exact B1 |].
    split; [exact B2 | exact B3].
  - destruct (arret_ou_renversement m RECULE 8 H
                (or_introl (conj eq_refl eq_refl))) as (_ & _ & A & _).
    destruct (A eq_refl) as [w (R & _ & B)].
    destruct (B ltac:(vm_compute; lia)) as (B1 & B2 & _ & B4).
    exists w. split; [exact R |]. split; [exact B1 |].
    split; [exact B2 | exact B4].
  - destruct (arret_ou_renversement m' AVANCE 2 H'
                (or_intror (conj eq_refl eq_refl))) as (_ & _ & _ & A).
    destruct (A eq_refl) as [w (R & _ & B)].
    destruct (B ltac:(vm_compute; lia)) as (B1 & B2 & B3 & _).
    exists w. split; [exact R |]. split; [exact B1 |]. split; [exact B2 |].
    rewrite B3, B2. reflexivity.
Defined.

(** ** Running *)

Lemma tictacs_succ (k : nat) : tictacs (S k) = tictacs k ++ [TICTAC].
Proof. unfold tictacs. cbn [repeat]. apply repeat_cons. Qed.

Lemma marche_avant_course (k : nat) (m : Monde) :
  etat m = MARCHE_AVANT -> 0 <= pas m <= 31 ->
  etat (apres_suite (tictacs k) m) = MARCHE_AVANT /\
  pas (apres_suite (tictacs k) m) = (pas m + Z.of_nat k) mod 32 /\
  length (commutations (apres_suite (tictacs k) m))
  = (k + length (commutations m))%nat /\
  ((1 <= k)%nat ->
   sorties_deplacement ((pas m + Z.of_nat k - 1) mod 32)
                       (apres_suite (tictacs k) m)).
Proof.
  intros E H. induction k as [| k IH].
  - cbn. rewrite Z.add_0_r, Z.mod_small by lia.
    split; [exact E |]. split; [reflexivity |]. split; [reflexivity |]. lia.
  - destruct IH as (I1 & I2 & I3 & _).
    rewrite tictacs_succ, apres_suite_app.
    set (w := apres_suite (tictacs k) m) in *.
    change (apres_suite [TICTAC] w) with (apres_machine TICTAC w).
    unfold apres_machine. rewrite I1.
    assert (V : 0 <= pas w <= 31)
      by (rewrite I2; pose proof (Z.mod_pos_bound (pas m + Z.of_nat k) 32); lia).
    split; [exact I1 |]. split; [| split].
    + cbn [pas avec_pas]. rewrite I2, Z.add_mod_idemp_l by lia.
      f_equal. lia.
    + cbn. rewrite I3. reflexivity.
    + intros _.
      replace (pas m + Z.of_nat (S k) - 1) with (pas m + Z.of_nat k) by lia.
      rewrite <- I2. apply effet_deplacement_sorties. exact V.
Qed.

Lemma marche_arriere_course (k : nat) (m : Monde) :
  etat m = MARCHE_ARRIERE -> 0 <= pas m <= 31 ->
  etat (apres_suite (tictacs k) m) = MARCHE_ARRIERE /\
  pas (apres_suite (tictacs k) m) = (pas m - Z.of_nat k) mod 32 /\
  length (commutations (apres_suite (tictacs k) m))
  = (k + length (commutations m))%nat /\
  ((1 <= k)%nat ->
   sorties_deplacement ((pas m - Z.of_nat k + 1) mod 32)
                       (apres_suite (tictacs k) m)).
Proof.
  intros E H. induction k as [| k IH].
  - cbn. rewrite Z.sub_0_r, Z.mod_small by lia.
    split; [exact E |]. split; [reflexivity |]. split; [reflexivity |]. lia.
  - destruct IH as (I1 & I2 & I3 & _).
    rewrite tictacs_succ, apres_suite_app.
    set (w := apres_suite (tictacs k) m) in *.
    change (apres_suite [TICTAC] w) with (apres_machine TICTAC w).
    unfold apres_machine. rewrite I1.
    assert (V : 0 <= pas w <= 31)
      by (rewrite I2; pose proof (Z.mod_pos_bound (pas m - Z.of_nat k) 32); lia).
    split; [exact I1 |]. split; [| split].
    + cbn [pas avec_pas]. rewrite I2.
      rewrite <- Zminus_mod_idemp_l. rewrite Z.mod_mod by lia.
      rewrite Zminus_mod_idemp_l. f_equal. lia.
    + cbn. rewrite I3. reflexivity.
    + intros _.
      replace (pas m - Z.of_nat (S k) + 1) with (pas m - Z.of_nat k) by lia.
      rewrite <- I2. apply effet_deplacement_sorties. exact V.
Qed.

(** X3. Running forward for any number [k] of [TICTAC] from a position in
    0..31: the machine stays in [MARCHE_AVANT], the position is
    [(p + k) mod 32] (so every 32 ticks bring it back), exactly [k] more
    commutation calls were made, and from the first tick on the outputs
    are those of [commutationDeplacement] at the position before the last
    increment, one step behind the position. *)
Theorem marche_avant_tics (m : Monde) (k : nat) :
  etat m = MARCHE_AVANT -> 0 <= pas m <= 31 ->
  exists w, machine_suite (tictacs k) m = Some (tt, w) /\
            etat w = MARCHE_AVANT /\
            pas w = (pas m + Z.of_nat k) mod 32 /\
            (Z.of_nat k mod 32 = 0 -> pas w = pas m) /\
            length (commutations w) = (k + length (commutations m))%nat /\
            ((1 <= k)%nat ->
             sorties_deplacement ((pas m + Z.of_nat k - 1) mod 32) w).
Proof.
  intros E H. exists (apres_suite (tictacs k) m).
  split; [apply machine_suite_total; exact H |].
  destruct (marche_avant_course k m E H) as (C1 & C2 & C3 & C4).
  split; [exact C1 |]. split; [exact C2 |].
  split; [| split; [exact C3 | exact C4]].
  intros R. rewrite C2, Z.add_mod, R, Z.add_0_r, Z.mod_mod by lia.
  apply Z.mod_small. lia.
Qed.

Lemma marche_avant_tics_temoin :
  let m := avec_pas 30 (avec_etat MARCHE_AVANT monde_initial) in
  etat m = MARCHE_AVANT /\ 0 <= pas m <= 31 /\
  exists w, machine_suite (tictacs 3) m = Some (tt, w) /\
            etat w = MARCHE_AVANT /\ pas w = 1 /\
            length (commutations w) = 3%nat /\
            sorties_deplacement 0 w.
Proof.
  intros m.
  assert (E : etat m = MARCHE_AVANT) by reflexivity.
  assert (H : 0 <= pas m <= 31) by (cbn; lia).
  split; [exact E | split; [exact H |]].
  destruct (marche_avant_tics m 3 E H) as [w (R & A & B & _ & C & D)].
  exists w. split; [exact R |]. split; [exact A |]. split; [exact B |].
  split; [exact C | apply D; lia].
Defined.

(** X4. Running backward for any number [k] of [TICTAC] from a position
    in 0..31: the machine stays in [MARCHE_ARRIERE], the position is
    [(p - k) mod 32], exactly [k] more commutation calls were made, and
    from the first tick on the outputs are those of
    [commutationDeplacement] at the position before the last decrement. *)
Theorem marche_arriere_tics (m : Monde) (k : nat) :
  etat m = MARCHE_ARRIERE -> 0 <= pas m <= 31 ->
  exists w, machine_suite (tictacs k) m = Some (tt, w) /\
            etat w = MARCHE_ARRIERE /\
            pas w = (pas m - Z.of_nat k) mod 32 /\
            (Z.of_nat k mod 32 = 0 -> pas w = pas m) /\
            length (commutations w) = (k + length (commutations m))%nat /\
            ((1 <= k)%nat ->
             sorties_deplacement ((pas m - Z.of_nat k + 1) mod 32) w).
Proof.
  intros E H. exists (apres_suite (tictacs k) m).
  split; [apply machine_suite_total; exact H |].
  destruct (marche_arriere_course k m E H) as (C1 & C2 & C3 & C4).
  split; [exact C1 |]. split; [exact C2 |].
  split; [| split; [exact C3 | exact C4]].
  intros R. rewrite C2, Zminus_mod, R, Z.sub_0_r, Z.mod_mod by lia.
  apply Z.mod_small. lia.
Qed.

Lemma marche_arriere_tics_temoin :
  let m := avec_pas 1 (avec_etat MARCHE_ARRIERE monde_initial) in
  etat m = MARCHE_ARRIERE /\ 0 <= pas m <= 31 /\
  exists w, machine_suite (tictacs 3) m = Some (tt, w) /\
            etat w = MARCHE_ARRIERE /\ pas w = 30 /\
            length (commutations w) = 3%nat /\
            sorties_deplacement 31 w.
Proof.
  intros m.
  assert (E : etat m = MARCHE_ARRIERE) by reflexivity.
  assert (H : 0 <= pas m <= 31) by (cbn; lia).
  split; [exact E | split; [exact H |]].
  destruct (marche_arriere_tics m 3 E H) as [w (R & A & B & _ & C & D)].
  exists w. split; [exact R |]. split; [exact A |]. split; [exact B |].
  split; [exact C | apply D; lia].
Defined.

(** ** The two position steps *)

Lemma avec_pas_pas (m : Monde) : avec_pas (pas m) m = m.
Proof. destruct m. reflexivity. Qed.

(** X5. The increment and the decrement of [machine] undo each other on a
    position in 0..31, in either order; and whatever the position was,
    each of them leaves one in 0..31. *)
Theorem pas_aller_retour (m : Monde) :
  0 <= pas m <= 31 ->
  (incremente_pas ;; decremente_pas) m = Some (tt, m) /\
  (decremente_pas ;; incremente_pas) m = Some (tt, m) /\
  (forall x, exists w, incremente_pas (avec_pas x m) = Some (tt, w) /\
                       0 <= pas w <= 31) /\
  (forall x, exists w, decremente_pas (avec_pas x m) = Some (tt, w) /\
                       0 <= pas w <= 31).
Proof.
  intros H. split; [| split; [| split]].
  - rewrite (bind_Some _ _ m _ tt (incremente_pas_effet m H)).
    rewrite decremente_pas_effet by (cbn [pas avec_pas]; apply suivant_borne).
    cbn [pas avec_pas].
    replace ((((pas m + 1) mod 32) - 1) mod 32) with (pas m).
    + change (avec_pas (pas m) (avec_pas ((pas m + 1) mod 32) m))
        with (avec_pas (pas m) m).
      rewrite avec_pas_pas. reflexivity.
    + destruct (Z.eq_dec (pas m) 31) as [L | L].
      * rewrite L. reflexivity.
      * rewrite (Z.mod_small (pas m + 1)) by lia.
        rewrite Z.mod_small by lia. lia.
  - rewrite (bind_Some _ _ m _ tt (decremente_pas_effet m H)).
    rewrite incremente_pas_effet by (cbn [pas avec_pas]; apply precedent_borne).
    cbn [pas avec_pas].
    replace ((((pas m - 1) mod 32) + 1) mod 32) with (pas m).
    + change (avec_pas (pas m) (avec_pas ((pas m - 1) mod 32) m))
        with (avec_pas (pas m) m).
      rewrite avec_pas_pas. reflexivity.
    + destruct (Z.eq_dec (pas m) 0) as [L | L].
      * rewrite L. reflexivity.
      * rewrite (Z.mod_small (pas m - 1)) by lia.
        rewrite Z.mod_small by lia. lia.
  - intros x. unfold incremente_pas, bind, modifie, lit, ret.
    cbn [pas avec_pas].
    pose proof (Z.mod_pos_bound (x + 1) 256 ltac:(lia)) as B.
    unfold octet.
    destruct (Z.ltb_spec 31 ((x + 1) mod 256)) as [G | G];
      eexists; (split; [reflexivity |]); cbn [pas avec_pas]; lia.
  - intros x. unfold decremente_pas, bind, modifie, lit, ret.
    cbn [pas avec_pas].
    pose proof (Z.mod_pos_bound (x - 1) 256 ltac:(lia)) as B.
    unfold octet.
    destruct (Z.ltb_spec 31 ((x - 1) mod 256)) as [G | G];
      eexists; (split; [reflexivity |]); cbn [pas avec_pas]; lia.
Qed.

Lemma pas_aller_retour_temoin :
  0 <= pas (avec_pas 31 monde_initial) <= 31 /\
  (incremente_pas ;; decremente_pas) (avec_pas 31 monde_initial)
  = Some (tt, avec_pas 31 monde_initial) /\
  (decremente_pas ;; incremente_pas) (avec_pas 31 monde_initial)
  = Some (tt, avec_pas 31 monde_initial).
Proof.
  assert (H : 0 <= pas (avec_pas 31 monde_initial) <= 31) by (cbn; lia).
  split; [exact H |].
  destruct (pas_aller_retour (avec_pas 31 monde_initial) H) as (A & B & _).
  split; [exact A | exact B].
Defined.

(** ** Invariants of the outputs *)

Lemma cos_borne (i : nat) : 0 <= nth i cos 0 <= PR2.
Proof.
  unfold PR2. destruct (nth_in_or_default i cos 0) as [H | H].
  - remember (nth i cos 0) as x eqn:X. clear X. unfold cos in H.
    repeat (destruct H as [H | H]; [subst x; lia |]). destruct H.
  - rewrite H. lia.
Qed.

Lemma apres_machine_arret_sorties (ev : Evenement) (m : Monde) :
  0 <= pas m <= 31 ->
  (etat m = ARRET -> sorties_stationnement m) ->
  etat (apres_machine ev m) = ARRET ->
  sorties_stationnement (apres_machine ev m).
Proof.
  intros V I. unfold apres_machine.
  destruct (etat m) eqn:E, ev;
    try destruct (pas_entier (pas m)) eqn:A;
    cbn [etat avec_etat avec_pas consigne_evenement effet_deplacement
         effet_stationnement avec_PORTA avec_CCPR3L consigne_commutation];
    rewrite ?E; intros F; try discriminate F;
    first [ apply effet_stationnement_sorties; [exact V | reflexivity]
          | apply (sorties_stationnement_meme_moteur _ m);
            [apply consigne_meme_moteur | apply I; reflexivity] ].
Qed.

Lemma apres_machine_sorties_bornees (ev : Evenement) (m : Monde) :
  0 <= pas m <= 31 ->
  0 <= CCPR3L m <= PR2 /\
  In (PORTA m) (commutateursStationnement ++ commutateursDeplacement) ->
  0 <= CCPR3L (apres_machine ev m) <= PR2 /\
  In (PORTA (apres_machine ev m))
     (commutateursStationnement ++ commutateursDeplacement).
Proof.
  intros V I. pose proof (indice_commutateurs_borne (pas m) V) as B.
  assert (D : 0 <= CCPR3L (effet_deplacement (pas m) m) <= PR2 /\
              In (PORTA (effet_deplacement (pas m) m))
                 (commutateursStationnement ++ commutateursDeplacement)).
  { cbn [CCPR3L PORTA effet_deplacement avec_PORTA avec_CCPR3L].
    split; [apply cos_borne |]. apply in_or_app. right.
    apply nth_In. simpl length. lia. }
  assert (S : 0 <= CCPR3L (effet_stationnement (pas m) m) <= PR2 /\
              In (PORTA (effet_stationnement (pas m) m))
                 (commutateursStationnement ++ commutateursDeplacement)).
  { cbn [CCPR3L PORTA effet_stationnement avec_PORTA avec_CCPR3L].
    split; [unfold PWM_ARRET, PR2; lia |]. apply in_or_app. left.
    apply nth_In. simpl length. lia. }
  unfold apres_machine.
  destruct (etat m), ev; try destruct (pas_entier (pas m));
    first [exact I | exact D | exact S].
Qed.

(** X6. Whatever the sequence of events received from the initial world,
    whenever the machine is in [ARRET] the outputs are the parked ones of
    the current position: duty 16 in [CCPR3L] and entry [pas >> 3] of the
    parked table in [PORTA]. *)
Theorem arret_sorties_stationnement (evs : list Evenement) :
  exists w, machine_suite evs monde_initial = Some (tt, w) /\
            (etat w = ARRET ->
             CCPR3L w = 16 /\
             nth_error commutateursStationnement (Z.to_nat (Z.shiftr (pas w) 3))
             = Some (PORTA w)).
Proof.
  exists (apres_suite evs monde_initial).
  split; [apply machine_suite_total; exact monde_initial_valide |].
  assert (G : forall l m, 0 <= pas m <= 31 ->
                          (etat m = ARRET -> sorties_stationnement m) ->
                          etat (apres_suite l m) = ARRET ->
                          sorties_stationnement (apres_suite l m)).
  { induction l as [| e r IH]; intros m V I.
    - exact I.
    - cbn. apply IH.
      + apply apres_machine_valide. exact V.
      + apply apres_machine_arret_sorties; assumption. }
  apply G; [exact monde_initial_valide |].
  intros _. split; reflexivity.
Qed.

Lemma arret_sorties_stationnement_temoin :
  exists w, machine_suite (RECULE :: tictacs 3 ++ ARRETE :: tictacs 6)
                          monde_initial = Some (tt, w) /\
            etat w = ARRET /\ pas w = 24 /\ CCPR3L w = 16 /\ PORTA w = 8.
Proof.
  destruct (arret_sorties_stationnement
              (RECULE :: tictacs 3 ++ ARRETE :: tictacs 6)) as [w (R & S)].
  exists w. split; [exact R |].
  rewrite machine_suite_total in R by exact monde_initial_valide.
  apply (f_equal (fun o => match o with
                           | Some (_, x) => x
                           | None => monde_initial
                           end)) in R.
  cbv beta iota in R. subst w.
  assert (E : etat (apres_suite (RECULE :: tictacs 3 ++ ARRETE :: tictacs 6)
                      monde_initial) = ARRET) by (vm_compute; reflexivity).
  destruct (S E) as [S1 S2].
  split; [exact E |]. split; [vm_compute; reflexivity |].
  split; [exact S1 | vm_compute; reflexivity].
Defined.

(** X7. Whatever the sequence of events received from the initial world,
    the duty in [CCPR3L] stays within 0..32, the period [PR2] that
    [main] gives the timer, and [PORTA] always holds one of the eight
    patterns of the two switch tables. *)
Theorem sorties_bornees (evs : list Evenement) :
  exists w, machine_suite evs monde_initial = Some (tt, w) /\
            0 <= CCPR3L w <= PR2 /\
            In (PORTA w) (commutateursStationnement ++ commutateursDeplacement).
Proof.
  exists (apres_suite evs monde_initial).
  split; [apply machine_suite_total; exact monde_initial_valide |].
  assert (G : forall l m,
             0 <= pas m <= 31 ->
             0 <= CCPR3L m <= PR2 /\
             In (PORTA m) (commutateursStationnement ++ commutateursDeplacement) ->
             0 <= CCPR3L (apres_suite l m) <= PR2 /\
             In (PORTA (apres_suite l m))
                (commutateursStationnement ++ commutateursDeplacement)).
  { induction l as [| e r IH]; intros m V I.
    - exact I.
    - cbn. apply IH.
      + apply apres_machine_valide. exact V.
      + apply apres_machine_sorties_bornees; assumption. }
  apply G; [exact monde_initial_valide |].
  split; [unfold PR2; cbn; lia | cbn; auto].
Qed.

(** * More of the commutation *)

(** X8. The two switch tables fit together: at every position in 0..31
    the pattern that [commutationDeplacement] writes to [PORTA] is the
    parked pattern of that position plus the parked pattern of the
    position 8 steps ahead, and parked patterns are single switches
    (1, 2, 4 or 8) that never coincide for these two positions. *)
Theorem deplacement_entre_deux_stationnements (p : Z) (m : Monde) :
  0 <= p <= 31 ->
  exists w w' w'',
    commutationDeplacement p m = Some (tt, w) /\
    commutationStationnement p m = Some (tt, w') /\
    commutationStationnement ((p + 8) mod 32) m = Some (tt, w'') /\
    PORTA w = PORTA w' + PORTA w'' /\
    Z.land (PORTA w') (PORTA w'') = 0 /\
    In (PORTA w') [1; 2; 4; 8] /\ In (PORTA w'') [1; 2; 4; 8].
Proof.
  intros H.
  exists (effet_deplacement p m), (effet_stationnement p m),
    (effet_stationnement ((p + 8) mod 32) m).
  split; [apply commutationDeplacement_effet; exact H |].
  split; [apply commutationStationnement_effet; exact H |].
  split; [apply commutationStationnement_effet;
          pose proof (Z.mod_pos_bound (p + 8) 32); lia |].
  cbn [PORTA effet_deplacement effet_stationnement avec_PORTA].
  pattern p. apply pour_chaque_pas; [| exact H].
  un_par_un; vm_compute; repeat split; auto 10.
Qed.

Lemma deplacement_entre_deux_stationnements_temoin :
  0 <= 27 <= 31 /\
  exists w w' w'',
    commutationDeplacement 27 monde_initial = Some (tt, w) /\
    commutationStationnement 27 monde_initial = Some (tt, w') /\
    commutationStationnement 3 monde_initial = Some (tt, w'') /\
    PORTA w = PORTA w' + PORTA w''.
Proof.
  split; [lia |].
  destruct (deplacement_entre_deux_stationnements 27 monde_initial ltac:(lia))
    as (w & w' & w'' & A & B & C & D & _).
  exists w, w', w''. repeat split; assumption.
Defined.

(** X9. The duty that [commutationDeplacement] writes to [CCPR3L] follows
    a symmetric wave over the 32 positions: the duties of two positions 8
    steps apart add up to the full range 32, mirrored positions [p] and
    [(32 - p) mod 32] get the same duty, and on a full step the duty is
    an end of the range, 0 or 32. *)
Theorem rapport_cyclique_symetrique (p : Z) (m : Monde) :
  0 <= p <= 31 ->
  exists w w' w'',
    commutationDeplacement p m = Some (tt, w) /\
    commutationDeplacement ((p + 8) mod 32) m = Some (tt, w') /\
    commutationDeplacement ((32 - p) mod 32) m = Some (tt, w'') /\
    CCPR3L w + CCPR3L w' = PR2 /\
    CCPR3L w'' = CCPR3L w /\
    (sur_pas_entier p -> CCPR3L w = 0 \/ CCPR3L w = PR2).
Proof.
  intros H.
  exists (effet_deplacement p m), (effet_deplacement ((p + 8) mod 32) m),
    (effet_deplacement ((32 - p) mod 32) m).
  split; [apply commutationDeplacement_effet; exact H |].
  split; [apply commutationDeplacement_effet;
          pose proof (Z.mod_pos_bound (p + 8) 32); lia |].
  split; [apply commutationDeplacement_effet;
          pose proof (Z.mod_pos_bound (32 - p) 32); lia |].
  cbn [CCPR3L effet_deplacement avec_PORTA avec_CCPR3L].
  pattern p. apply pour_chaque_pas; [| exact H].
  un_par_un; (split; [vm_compute; reflexivity |]);
    (split; [vm_compute; reflexivity |]);
    unfold sur_pas_entier; intros S;
    first [left; vm_compute; reflexivity
          | right; vm_compute; reflexivity
          | exfalso; lia].
Qed.

Lemma rapport_cyclique_symetrique_temoin :
  0 <= 3 <= 31 /\
  exists w w' w'',
    commutationDeplacement 3 monde_initial = Some (tt, w) /\
    commutationDeplacement 11 monde_initial = Some (tt, w') /\
    commutationDeplacement 29 monde_initial = Some (tt, w'') /\
    CCPR3L w + CCPR3L w' = 32 /\ CCPR3L w'' = CCPR3L w.
Proof.
  split; [lia |].
  destruct (rapport_cyclique_symetrique 3 monde_initial ltac:(lia))
    as (w & w' & w'' & A & B & C & D & E & _).
  exists w, w', w''. repeat split; assumption.
Defined.

(** X10. The guard [pas > 31] of [machine] is what keeps the reads inside
    the tables: for an 8-bit position from 32 up, the index [pas >> 3] is
    at least 4, past the end of both 4-entry switch tables, and neither
    commutation routine has a defined result. *)
Theorem commutation_hors_tables (p : Z) (m : Monde) :
  32 <= p <= 255 ->
  4 <= indice_commutateurs p <= 31 /\
  length commutateursStationnement = 4%nat /\
  length commutateursDeplacement = 4%nat /\
  commutationStationnement p m = None /\
  commutationDeplacement p m = None.
Proof.
  intros H.
  assert (B : 4 <= indice_commutateurs p <= 31).
  { unfold indice_commutateurs. rewrite decalage_3.
    assert (4 <= p / 8) by (apply Z.div_le_lower_bound; lia).
    assert (p / 8 < 32) by (apply Z.div_lt_upper_bound; lia).
    rewrite octet_petit by lia. lia. }
  pose proof (indice_cos_borne p) as C.
  split; [exact B |]. split; [reflexivity |]. split; [reflexivity |]. split.
  - unfold commutationStationnement, bind, modifie.
    rewrite lit_tableau_dehors by (simpl length; lia). reflexivity.
  - unfold commutationDeplacement, bind, modifie.
    rewrite lit_tableau_dedans by (simpl length; lia).
    rewrite lit_tableau_dehors by (simpl length; lia). reflexivity.
Qed.

Lemma commutation_hors_tables_temoin :
  32 <= 255 <= 255 /\ indice_commutateurs 255 = 31 /\
  commutationStationnement 255 monde_initial = None /\
  commutationDeplacement 255 monde_initial = None.
Proof.
  split; [lia |].
  destruct (commutation_hors_tables 255 monde_initial ltac:(lia))
    as (_ & _ & _ & A & B).
  split; [reflexivity | split; assumption].
Defined.

(** * More of the interrupt handler *)

(** ** The handler as a total function *)

Lemma apres_bloc_tmr2_valide (m : Monde) :
  pas_valide m -> pas_valide (apres_bloc_tmr2 m).
Proof.
  intros V. unfold apres_bloc_tmr2. destruct (TMR2IF m); [| exact V].
  cbv zeta.
  set (m2 := if hp_n (avec_TMR2IF false m) =? 0
             then apres_machine TICTAC (avec_TMR2IF false m)
             else avec_TMR2IF false m).
  assert (V2 : pas_valide m2).
  { unfold m2. destruct (hp_n (avec_TMR2IF false m) =? 0);
      [apply apres_machine_valide |]; exact V. }
  destruct (25 <? hp_n (avec_hp_n (octet (hp_n m2 + 1)) m2)); exact V2.
Qed.

Lemma apres_bloc_int2_valide (m : Monde) :
  pas_valide m -> pas_valide (apres_bloc_int2 m).
Proof.
  intros V. unfold apres_bloc_int2.
  destruct (INT2IF m); [apply apres_machine_valide |]; exact V.
Qed.

Lemma apres_bloc_int1_valide (m : Monde) :
  pas_valide m -> pas_valide (apres_bloc_int1 m).
Proof.
  intros V. unfold apres_bloc_int1.
  destruct (INT1IF m); [apply apres_machine_valide |]; exact V.
Qed.

Lemma apres_interruptionsHP_valide (m : Monde) :
  pas_valide m -> pas_valide (apres_interruptionsHP m).
Proof.
  intros V. unfold apres_interruptionsHP.
  apply apres_bloc_int1_valide, apres_bloc_int2_valide, apres_bloc_tmr2_valide.
  exact V.
Qed.

Lemma interruptionsHP_total (m : Monde) :
  pas_valide m -> interruptionsHP m = Some (tt, apres_interruptionsHP m).
Proof.
  intros V. unfold interruptionsHP, apres_interruptionsHP.
  set (m4 := apres_bloc_tmr2 m).
  assert (V4 : pas_valide m4) by (apply apres_bloc_tmr2_valide; exact V).
  set (m5 := apres_bloc_int2 m4).
  assert (V5 : pas_valide m5) by (apply apres_bloc_int2_valide; exact V4).
  rewrite (bind_Some _ _ m m (TMR2IF m)) by reflexivity.
  rewrite (bind_Some _ _ _ m4 tt).
  2:{ unfold m4, apres_bloc_tmr2. destruct (TMR2IF m); [| reflexivity].
      cbv zeta.
      set (m1 := avec_TMR2IF false m).
      set (m2 := if hp_n m1 =? 0 then apres_machine TICTAC m1 else m1).
      set (m3 := avec_hp_n (octet (hp_n m2 + 1)) m2).
      rewrite (bind_Some _ _ _ m1 tt) by reflexivity.
      rewrite (bind_Some _ _ _ m1 (hp_n m1)) by reflexivity.
      rewrite (bind_Some _ _ _ m2 tt)
        by (unfold m2; destruct (hp_n m1 =? 0);
            [apply machine_total; exact V | reflexivity]).
      rewrite (bind_Some _ _ _ m3 tt) by reflexivity.
      rewrite (bind_Some _ _ _ m3 (hp_n m3)) by reflexivity.
      destruct (25 <? hp_n m3); reflexivity. }
  rewrite (bind_Some _ _ _ m4 (INT2IF m4)) by reflexivity.
  rewrite (bind_Some _ _ _ m5 tt).
  2:{ unfold m5, apres_bloc_int2. destruct (INT2IF m4); [| reflexivity].
      rewrite (bind_Some _ _ _ (avec_INT2IF false m4) tt) by reflexivity.
      apply machine_total. exact V4. }
  rewrite (bind_Some _ _ _ m5 (INT1IF m5)) by reflexivity.
  unfold apres_bloc_int1. destruct (INT1IF m5); [| reflexivity].
  rewrite (bind_Some _ _ _ (avec_INT1IF false m5) tt) by reflexivity.
  apply machine_total. exact V5.
Qed.

(** ** The handler dispatches events and nothing else *)

Lemma meme_machine_refl (m : Monde) : meme_machine m m.
Proof. split; [apply meme_moteur_refl | reflexivity]. Qed.

Lemma meme_machine_trans (a b c : Monde) :
  meme_machine a b -> meme_machine b c -> meme_machine a c.
Proof.
  intros [A1 A2] [B1 B2]. split; [| congruence].
  apply (meme_moteur_trans _ _ _ A1 B1).
Qed.

Lemma apres_machine_meme_machine (ev : Evenement) (a b : Monde) :
  meme_machine a b ->
  meme_machine (apres_machine ev a) (apres_machine ev b).
Proof.
  intros [A1 A2]. split; [apply apres_machine_meme_moteur; exact A1 |].
  destruct (apres_machine_cadre ev a) as (_ & _ & _ & _ & Ea).
  destruct (apres_machine_cadre ev b) as (_ & _ & _ & _ & Eb).
  congruence.
Qed.

Lemma apres_suite_meme_machine (evs : list Evenement) :
  forall a b, meme_machine a b ->
              meme_machine (apres_suite evs a) (apres_suite evs b).
Proof.
  induction evs as [| e r IH]; intros a b H.
  - exact H.
  - cbn. apply IH. apply apres_machine_meme_machine. exact H.
Qed.

Lemma apres_suite_evenements (evs : list Evenement) :
  forall m, evenements (apres_suite evs m) = rev evs ++ evenements m.
Proof.
  induction evs as [| e r IH]; intros m.
  - reflexivity.
  - cbn [apres_suite fold_left rev]. fold (apres_suite r (apres_machine e m)).
    rewrite IH. destruct (apres_machine_cadre e m) as (_ & _ & _ & _ & E).
    rewrite E, <- app_assoc. reflexivity.
Qed.

Lemma apres_bloc_tmr2_bilan (m : Monde) :
  TMR2IF (apres_bloc_tmr2 m) = false /\
  INT2IF (apres_bloc_tmr2 m) = INT2IF m /\
  INT1IF (apres_bloc_tmr2 m) = INT1IF m /\
  hp_n (apres_bloc_tmr2 m)
  = (if TMR2IF m
     then if 25 <? octet (hp_n m + 1) then 0 else octet (hp_n m + 1)
     else hp_n m) /\
  meme_machine (apres_bloc_tmr2 m)
    (apres_suite (if TMR2IF m && (hp_n m =? 0) then [TICTAC] else []) m).
Proof.
  unfold apres_bloc_tmr2. destruct (TMR2IF m) eqn:T.
  - cbv zeta. set (m1 := avec_TMR2IF false m).
    change (hp_n m1) with (hp_n m). cbn [andb].
    set (m2 := if hp_n m =? 0 then apres_machine TICTAC m1 else m1).
    assert (P2 : TMR2IF m2 = false /\ INT2IF m2 = INT2IF m /\
                 INT1IF m2 = INT1IF m /\ hp_n m2 = hp_n m /\
                 meme_machine m2
                   (apres_suite (if hp_n m =? 0 then [TICTAC] else []) m)).
    { unfold m2. destruct (hp_n m =? 0).
      - destruct (apres_machine_cadre TICTAC m1) as (H1 & H2 & H3 & H4 & _).
        split; [exact H2 |]. split; [exact H3 |]. split; [exact H4 |].
        split; [exact H1 |].
        cbn [apres_suite fold_left]. apply apres_machine_meme_machine.
        split; [unfold meme_moteur; repeat split |]; reflexivity.
      - repeat split; reflexivity. }
    destruct P2 as (A & B & C & D & [E1 E2]).
    set (m3 := avec_hp_n (octet (hp_n m2 + 1)) m2).
    change (hp_n m3) with (octet (hp_n m2 + 1)). rewrite D.
    destruct (25 <? octet (hp_n m + 1)).
    + repeat split; try assumption; try reflexivity; apply E1.
    + split; [exact A |]. split; [exact B |]. split; [exact C |].
      split; [cbn [hp_n m3 avec_hp_n]; rewrite D; reflexivity |].
      split; [| exact E2]. unfold meme_moteur. cbn. apply E1.
  - split; [exact T |]. repeat split; reflexivity.
Qed.

Lemma apres_bloc_int2_bilan (m : Monde) :
  TMR2IF (apres_bloc_int2 m) = TMR2IF m /\
  INT2IF (apres_bloc_int2 m) = false /\
  INT1IF (apres_bloc_int2 m) = INT1IF m /\
  hp_n (apres_bloc_int2 m) = hp_n m /\
  meme_machine (apres_bloc_int2 m)
    (apres_suite (if INT2IF m then [AVANCE] else []) m).
Proof.
  unfold apres_bloc_int2. destruct (INT2IF m) eqn:T.
  - destruct (apres_machine_cadre AVANCE (avec_INT2IF false m))
      as (H1 & H2 & H3 & H4 & _).
    split; [exact H2 |]. split; [exact H3 |]. split; [exact H4 |].
    split; [exact H1 |].
    cbn [apres_suite fold_left]. apply apres_machine_meme_machine.
    split; [unfold meme_moteur; repeat split |]; reflexivity.
  - split; [reflexivity |]. split; [exact T |]. repeat split; reflexivity.
Qed.

Lemma apres_bloc_int1_bilan (m : Monde) :
  TMR2IF (apres_bloc_int1 m) = TMR2IF m /\
  INT2IF (apres_bloc_int1 m) = INT2IF m /\
  INT1IF (apres_bloc_int1 m) = false /\
  hp_n (apres_bloc_int1 m) = hp_n m /\
  meme_machine (apres_bloc_int1 m)
    (apres_suite (if INT1IF m then [RECULE] else []) m).
Proof.
  unfold apres_bloc_int1. destruct (INT1IF m) eqn:T.
  - destruct (apres_machine_cadre RECULE (avec_INT1IF false m))
      as (H1 & H2 & H3 & H4 & _).
    split; [exact H2 |]. split; [exact H3 |]. split; [exact H4 |].
    split; [exact H1 |].
    cbn [apres_suite fold_left]. apply apres_machine_meme_machine.
    split; [unfold meme_moteur; repeat split |]; reflexivity.
  - split; [reflexivity |]. split; [reflexivity |]. split; [exact T |].
    repeat split; reflexivity.
Qed.

Lemma apres_interruptionsHP_bilan (m : Monde) :
  drapeaux_baisses (apres_interruptionsHP m) /\
  hp_n (apres_interruptionsHP m)
  = (if TMR2IF m
     then if 25 <? octet (hp_n m + 1) then 0 else octet (hp_n m + 1)
     else hp_n m) /\
  meme_machine (apres_interruptionsHP m)
               (apres_suite (evenements_emis m) m).
Proof.
  unfold apres_interruptionsHP, evenements_emis, drapeaux_baisses.
  destruct (apres_bloc_tmr2_bilan m) as (A1 & A2 & A3 & A4 & A5).
  set (m4 := apres_bloc_tmr2 m) in *.
  destruct (apres_bloc_int2_bilan m4) as (B1 & B2 & B3 & B4 & B5).
  set (m5 := apres_bloc_int2 m4) in *.
  destruct (apres_bloc_int1_bilan m5) as (C1 & C2 & C3 & C4 & C5).
  split; [repeat split; congruence |]. split; [congruence |].
  rewrite !apres_suite_app.
  apply (meme_machine_trans _ _ _ C5).
  rewrite B3, A3. apply apres_suite_meme_machine.
  apply (meme_machine_trans _ _ _ B5).
  rewrite A2. apply apres_suite_meme_machine. exact A5.
Qed.

(** X11. One run of the handler on a position in 0..31 lowers the three
    flags and acts on the motor exactly as the events it dispatches, in
    this order: [TICTAC] if the timer flag is up and the divider is at 0,
    then [AVANCE] if INT2 is up, then [RECULE] if INT1 is up.  With no
    flag up it dispatches nothing. *)
Theorem interruptionsHP_emet (m : Monde) :
  0 <= pas m <= 31 ->
  exists w w',
    interruptionsHP m = Some (tt, w) /\
    machine_suite (evenements_emis m) m = Some (tt, w') /\
    meme_moteur w w' /\
    evenements w = rev (evenements_emis m) ++ evenements m /\
    TMR2IF w = false /\ INT2IF w = false /\ INT1IF w = false.
Proof.
  intros V.
  exists (apres_interruptionsHP m), (apres_suite (evenements_emis m) m).
  destruct (apres_interruptionsHP_bilan m) as ((F1 & F2 & F3) & _ & [M E]).
  split; [apply interruptionsHP_total; exact V |].
  split; [apply machine_suite_total; exact V |].
  split; [exact M |].
  split; [rewrite E; apply apres_suite_evenements |].
  repeat split; assumption.
Qed.

Lemma interruptionsHP_emet_temoin :
  let m := MkMonde MARCHE_AVANT 7 0 1 5 true true true [] [] in
  0 <= pas m <= 31 /\
  exists w w',
    interruptionsHP m = Some (tt, w) /\
    machine_suite [TICTAC; AVANCE; RECULE] m = Some (tt, w') /\
    meme_moteur w w' /\
    evenements w = [RECULE; AVANCE; TICTAC] /\
    TMR2IF w = false /\ INT2IF w = false /\ INT1IF w = false.
Proof.
  intros m. assert (V : 0 <= pas m <= 31) by (cbn; lia).
  split; [exact V |]. exact (interruptionsHP_emet m V).
Defined.

(** ** Sequences of interruptions *)

Lemma interruption_total (d : Demande) (m : Monde) :
  pas_valide m ->
  interruption d m = Some (tt, apres_interruptionsHP (leve d m)).
Proof.
  intros V. unfold interruption.
  rewrite (bind_Some _ _ m (leve d m) tt) by reflexivity.
  apply interruptionsHP_total. exact V.
Qed.

Lemma interruptions_total (l : list Demande) :
  forall m, pas_valide m ->
            interruptions l m = Some (tt, apres_interruptions l m).
Proof.
  induction l as [| d r IH]; intros m V.
  - reflexivity.
  - cbn [interruptions].
    rewrite (bind_Some _ _ m _ tt (interruption_total d m V)).
    apply IH. apply apres_interruptionsHP_valide. exact V.
Qed.

Lemma apres_interruptions_valide (l : list Demande) :
  forall m, pas_valide m -> pas_valide (apres_interruptions l m).
Proof.
  induction l as [| d r IH]; intros m V.
  - exact V.
  - cbn. apply IH. apply apres_interruptionsHP_valide. exact V.
Qed.

Lemma nombre_tictac_app (a b : list Evenement) :
  nombre_tictac (a ++ b) = (nombre_tictac a + nombre_tictac b)%nat.
Proof. unfold nombre_tictac. rewrite filter_app, length_app. reflexivity. Qed.

Lemma nombre_tirs_app (a b : list Demande) :
  nombre_tirs (a ++ b) = (nombre_tirs a + nombre_tirs b)%nat.
Proof. unfold nombre_tirs. rewrite filter_app, length_app. reflexivity. Qed.

Lemma cadence (l : list Demande) (m : Monde) :
  pas_valide m -> drapeaux_baisses m -> hp_n m = 0 ->
  drapeaux_baisses (apres_interruptions l m) /\
  hp_n (apres_interruptions l m) = Z.of_nat (nombre_tirs l) mod 26 /\
  Z.of_nat (nombre_tictac (evenements (apres_interruptions l m)))
  = Z.of_nat (nombre_tictac (evenements m))
    + (Z.of_nat (nombre_tirs l) + 25) / 26.
Proof.
  intros V F N. induction l as [| d l IH] using rev_ind.
  - cbn. rewrite N. split; [exact F |]. split; [reflexivity |]. lia.
  - destruct IH as ((F1 & F2 & F3) & H & T).
    unfold apres_interruptions in *. rewrite fold_left_app.
    set (w := fold_left (fun w d => apres_interruptionsHP (leve d w)) l m) in *.
    cbn [fold_left].
    destruct (apres_interruptionsHP_bilan (leve d w)) as (B1 & B2 & [_ B3]).
    rewrite apres_suite_evenements in B3.
    split; [exact B1 |].
    rewrite B2, B3, nombre_tictac_app, nombre_tirs_app, Nat2Z.inj_add.
    unfold evenements_emis.
    cbn [TMR2IF INT2IF INT1IF hp_n evenements leve
         avec_TMR2IF avec_INT2IF avec_INT1IF].
    rewrite F1, F2, F3. cbn [orb]. rewrite Nat2Z.inj_add, T, H.
    replace (Z.of_nat (nombre_tirs [d])) with (if d_tmr2 d then 1 else 0)
      by (unfold nombre_tirs; cbn [filter]; destruct (d_tmr2 d); reflexivity).
    set (j := Z.of_nat (nombre_tirs l)).
    assert (J : 0 <= j) by (unfold j; lia).
    destruct (d_tmr2 d).
    + cbn [andb].
      pose proof (Z.mod_pos_bound j 26 ltac:(lia)) as R.
      rewrite octet_petit by lia.
      assert (Q : Z.of_nat
                    (nombre_tictac
                       (rev ((if j mod 26 =? 0 then [TICTAC] else [])
                             ++ (if d_int2 d then [AVANCE] else [])
                             ++ (if d_int1 d then [RECULE] else []))))
                  = if j mod 26 =? 0 then 1 else 0)
        by (destruct (j mod 26 =? 0), (d_int2 d), (d_int1 d); reflexivity).
      rewrite Q.
      destruct (Z.eqb_spec (j mod 26) 0) as [Z0 | NZ];
        destruct (Z.ltb_spec 25 (j mod 26 + 1)) as [G | G];
        split; Z.div_mod_to_equations; lia.
    + cbn [andb].
      assert (Q : nombre_tictac
                    (rev ([] ++ (if d_int2 d then [AVANCE] else [])
                             ++ (if d_int1 d then [RECULE] else [])))
                  = 0%nat)
        by (destruct (d_int2 d), (d_int1 d); reflexivity).
      rewrite Q, !Z.add_0_r. split; [reflexivity |]. cbn. lia.
Qed.

(** X12. Over any sequence of interruptions that starts with the divider
    at 0 and no flag pending, whatever the direction lines do in between,
    the handler returns each time, the divider stays in 0..25 and equals
    the number of timer firings modulo 26, and the number of [TICTAC]
    dispatched is that number divided by 26, rounded up: one per group of
    26 firings, begun or complete. *)
Theorem interruptions_cadence (l : list Demande) (m : Monde) :
  0 <= pas m <= 31 ->
  TMR2IF m = false /\ INT2IF m = false /\ INT1IF m = false ->
  hp_n m = 0 ->
  exists w, interruptions l m = Some (tt, w) /\
            0 <= hp_n w <= 25 /\
            hp_n w = Z.of_nat (nombre_tirs l) mod 26 /\
            Z.of_nat (nombre_tictac (evenements w))
            = Z.of_nat (nombre_tictac (evenements m))
              + (Z.of_nat (nombre_tirs l) + 25) / 26.
Proof.
  intros V F N. exists (apres_interruptions l m).
  split; [apply interruptions_total; exact V |].
  destruct (cadence l m V F N) as (_ & H & T).
  split; [| split; assumption].
  rewrite H. pose proof (Z.mod_pos_bound (Z.of_nat (nombre_tirs l)) 26). lia.
Qed.

Lemma interruptions_cadence_temoin :
  let tir := MkDemande true false false in
  let bouton := MkDemande false true false in
  let l := repeat tir 27 ++ bouton :: repeat tir 3 in
  0 <= pas monde_initial <= 31 /\ hp_n monde_initial = 0 /\
  exists w, interruptions l monde_initial = Some (tt, w) /\
            hp_n w = 4 /\ nombre_tictac (evenements w) = 2%nat.
Proof.
  intros tir bouton l.
  split; [exact monde_initial_valide | split; [reflexivity |]].
  destruct (interruptions_cadence l monde_initial monde_initial_valide
              (conj eq_refl (conj eq_refl eq_refl)) eq_refl)
    as [w (R & _ & H & T)].
  exists w. split; [exact R |]. split; [exact H |].
  apply Nat2Z.inj. rewrite T. reflexivity.
Defined.

Lemma apres_suite_arret_sorties (l : list Evenement) :
  forall m, 0 <= pas m <= 31 ->
            (etat m = ARRET -> sorties_stationnement m) ->
            etat (apres_suite l m) = ARRET ->
            sorties_stationnement (apres_suite l m).
Proof.
  induction l as [| e r IH]; intros m V I.
  - exact I.
  - cbn. apply IH.
    + apply apres_machine_valide. exact V.
    + apply apres_machine_arret_sorties; assumption.
Qed.

Lemma evenements_emis_sans_ARRETE (m : Monde) :
  ~ In ARRETE (evenements_emis m).
Proof.
  unfold evenements_emis.
  destruct (TMR2IF m && (hp_n m =? 0)), (INT2IF m), (INT1IF m);
    cbn; intros H; repeat (destruct H as [H | H]; [discriminate H |]);
    exact H.
Qed.

(** What the handler keeps true from one interruption to the next. *)
Lemma interruption_invariant (d : Demande) (m : Monde) :
  pas_valide m ->
  (etat m = ARRET -> sur_pas_entier (pas m) /\ sorties_stationnement m) ->
  ~ In ARRETE (evenements m) ->
  (etat (apres_interruptionsHP (leve d m)) = ARRET ->
   sur_pas_entier (pas (apres_interruptionsHP (leve d m))) /\
   sorties_stationnement (apres_interruptionsHP (leve d m))) /\
  ~ In ARRETE (evenements (apres_interruptionsHP (leve d m))).
Proof.
  intros V I N.
  set (x := leve d m).
  assert (Vx : pas_valide x) by exact V.
  assert (Ix : etat x = ARRET ->
               sur_pas_entier (pas x) /\ sorties_stationnement x) by exact I.
  destruct (apres_interruptionsHP_bilan x) as (_ & _ & [M E]).
  set (y := apres_suite (evenements_emis x) x) in *.
  pose proof (sorties_stationnement_meme_moteur _ _ M) as TS.
  destruct M as (M1 & M2 & _).
  split.
  - rewrite M1, M2. intros A. split.
    + apply apres_suite_arret; [intros Ax; apply Ix; exact Ax | exact A].
    + apply TS. apply apres_suite_arret_sorties;
        [exact Vx | intros Ax; apply Ix; exact Ax | exact A].
  - rewrite E. unfold y. rewrite apres_suite_evenements.
    intros H. apply in_app_or in H. destruct H as [H | H].
    + apply in_rev in H. exact (evenements_emis_sans_ARRETE x H).
    + exact (N H).
Qed.

(** X13. Driven by the handler alone, through any sequence of
    interruptions from the initial world: every run of the handler
    returns, the position stays in 0..31, the machine is in [ARRET] only
    on a full step and with the parked outputs, and [machine] is never
    given the event [ARRETE], which the handler does not dispatch. *)
Theorem interruptions_sures (l : list Demande) :
  exists w, interruptions l monde_initial = Some (tt, w) /\
            0 <= pas w <= 31 /\
            (etat w = ARRET ->
             sur_pas_entier (pas w) /\ sorties_stationnement w) /\
            ~ In ARRETE (evenements w).
Proof.
  exists (apres_interruptions l monde_initial).
  split; [apply interruptions_total; exact monde_initial_valide |].
  split; [apply apres_interruptions_valide; exact monde_initial_valide |].
  assert (G : forall r m,
             pas_valide m ->
             (etat m = ARRET ->
              sur_pas_entier (pas m) /\ sorties_stationnement m) ->
             ~ In ARRETE (evenements m) ->
             (etat (apres_interruptions r m) = ARRET ->
              sur_pas_entier (pas (apres_interruptions r m)) /\
              sorties_stationnement (apres_interruptions r m)) /\
             ~ In ARRETE (evenements (apres_interruptions r m))).
  { induction r as [| d r IH]; intros m V I N.
    - split; assumption.
    - cbn. destruct (interruption_invariant d m V I N) as [I' N'].
      apply IH; [apply apres_interruptionsHP_valide; exact V | exact I' | exact N']. }
  apply G.
  - exact monde_initial_valide.
  - intros _. split; [left; reflexivity | split; reflexivity].
  - intros H. exact H.
Qed.

Lemma interruptions_sures_temoin :
  let l := [MkDemande false true false; MkDemande true false false;
            MkDemande true false true; MkDemande true false false] in
  exists w, interruptions l monde_initial = Some (tt, w) /\
            etat w = FREIN_AVANT /\ pas w = 1 /\
            ~ In ARRETE (evenements w).
Proof.
  intros l. destruct (interruptions_sures l) as [w (R & _ & _ & N)].
  exists w. split; [exact R |].
  rewrite interruptions_total in R by exact monde_initial_valide.
  apply (f_equal (fun o => match o with
                           | Some (_, x) => x
                           | None => monde_initial
                           end)) in R.
  cbv beta iota in R. subst w.
  split; [vm_compute; reflexivity |]. split; [vm_compute; reflexivity |].
  exact N.
Defined.

(** X14. Both direction lines in the same interruption, motor parked:
    the handler serves INT2 before INT1, so the machine goes through
    [MARCHE_AVANT] to [FREIN_AVANT] without a step or a write to the
    outputs, and the next [TICTAC] parks it again where it was. *)
Theorem deux_lignes_ensemble (m : Monde) :
  etat m = ARRET -> sur_pas_entier (pas m) ->
  TMR2IF m = false -> INT2IF m = true -> INT1IF m = true ->
  exists w w',
    interruptionsHP m = Some (tt, w) /\
    etat w = FREIN_AVANT /\ pas w = pas m /\
    CCPR3L w = CCPR3L m /\ PORTA w = PORTA m /\
    commutations w = commutations m /\
    evenements w = RECULE :: AVANCE :: evenements m /\
    machine TICTAC w = Some (tt, w') /\
    etat w' = ARRET /\ pas w' = pas m /\
    commutations w' = Stationnement (pas m) :: commutations m.
Proof.
  intros E A T I2 I1.
  assert (V : pas_valide m) by (unfold pas_valide, sur_pas_entier in *; lia).
  destruct m as [e p n c a t i2 i1 evs coms].
  cbn in E, A, T, I2, I1, V. subst e t i2 i1.
  set (m := MkMonde ARRET p n c a false true true evs coms).
  set (w := apres_interruptionsHP m).
  exists w.
  exists (avec_etat ARRET
            (effet_stationnement (pas w) (consigne_evenement TICTAC w))).
  split; [apply interruptionsHP_total; exact V |].
  assert (W : w = MkMonde FREIN_AVANT p n c a false false false
                    (RECULE :: AVANCE :: evs) coms) by reflexivity.
  rewrite W. repeat split.
  apply machine_FREIN_AVANT_entier;
    [reflexivity | apply sur_pas_entier_pas_entier; exact A].
Qed.

Lemma deux_lignes_ensemble_temoin :
  let m := MkMonde ARRET 16 5 16 2 false true true [] [] in
  etat m = ARRET /\ sur_pas_entier (pas m) /\
  exists w w', interruptionsHP m = Some (tt, w) /\
               etat w = FREIN_AVANT /\ pas w = 16 /\
               machine TICTAC w = Some (tt, w') /\
               etat w' = ARRET /\ pas w' = 16.
Proof.
  intros m.
  assert (A : sur_pas_entier (pas m)) by (right; right; left; reflexivity).
  split; [reflexivity | split; [exact A |]].
  destruct (deux_lignes_ensemble m eq_refl A eq_refl eq_refl eq_refl)
    as (w & w' & R & E & P & _ & _ & _ & _ & R' & E' & P' & _).
  exists w, w'. repeat split; assumption.
Defined.

(** * [main] *)

(** X15. Whatever the output registers and the timer flag hold at reset,
    [main] returns with the outputs parked on position 0 (its earlier
    [PORTA = 9] is overwritten), which is the initial world but for the
    journalled call; and from there, whatever events follow, the
    position stays in 0..31 and the machine is in [ARRET] only on a full
    step with the parked outputs. *)
Theorem main_puis_machine (c a : Z) (t : bool) (evs : list Evenement) :
  main (monde_reset c a t)
  = Some (tt, consigne_commutation (Stationnement 0) monde_initial) /\
  exists w, (main ;; machine_suite evs) (monde_reset c a t) = Some (tt, w) /\
            0 <= pas w <= 31 /\
            (etat w = ARRET ->
             sur_pas_entier (pas w) /\ sorties_stationnement w).
Proof.
  assert (R : main (monde_reset c a t)
              = Some (tt, consigne_commutation (Stationnement 0) monde_initial))
    by reflexivity.
  split; [exact R |].
  set (m0 := consigne_commutation (Stationnement 0) monde_initial) in *.
  assert (V : pas_valide m0) by exact monde_initial_valide.
  exists (apres_suite evs m0).
  split; [rewrite (bind_Some _ _ _ _ tt R); apply machine_suite_total; exact V |].
  split; [apply apres_suite_valide; exact V |].
  intros E. split.
  - apply apres_suite_arret; [intros _; left; reflexivity | exact E].
  - apply apres_suite_arret_sorties;
      [exact V | intros _; split; reflexivity | exact E].
Qed.

Lemma main_puis_machine_temoin :
  exists w, (main ;; machine_suite (AVANCE :: tictacs 2 ++ RECULE :: tictacs 7))
              (monde_reset 0 0 true) = Some (tt, w) /\
            etat w = ARRET /\ pas w = 8 /\ sorties_stationnement w.
Proof.
  destruct (main_puis_machine 0 0 true
              (AVANCE :: tictacs 2 ++ RECULE :: tictacs 7))
    as [M [w (R & _ & S)]].
  exists w. split; [exact R |].
  rewrite (bind_Some _ _ _ _ tt M) in R.
  rewrite machine_suite_total in R by exact monde_initial_valide.
  apply (f_equal (fun o => match o with
                           | Some (_, x) => x
                           | None => monde_initial
                           end)) in R.
  cbv beta iota in R. subst w.
  assert (E : etat (apres_suite (AVANCE :: tictacs 2 ++ RECULE :: tictacs 7)
                      (consigne_commutation (Stationnement 0) monde_initial))
              = ARRET) by (vm_compute; reflexivity).
  split; [exact E |]. split; [vm_compute; reflexivity |].
  apply (S E).
Defined.
